(** * objectcount: detection filtering, counting, CSV snapshots and the stream loop

    A shallow embedding of [count_objects.py] and the properties of its
    per-frame pipeline.

    - Confidences, thresholds and clock readings are IEEE 754 values
      ([spec_float], comparisons [SFltb]/[SFleb], binary64 subtraction
      [SFsub 53 1024]); the two operands of a comparison are taken in the
      common binary format NumPy/Python compare them in.
    - A Python [dict] keyed by labels is a [gmap string Z]; a [str] is its
      UTF-8 byte string, whose bytewise order ([String.compare]) is the
      code-point order Python sorts by.
    - Exceptions are the left summand of [exn + A]; the effects of [main]
      (files written, windows, prints) are threaded through a small
      state-and-error monad over [world].
    - The detection model, OpenCV, the csv module and the clock are external:
      what they answer is an input of the embedding ([Results], [Tick]). *)

From Stdlib Require Import ZArith String Ascii SpecFloat.
From stdpp Require Import gmap strings list sorting fin_maps.

Open Scope Z_scope.

(** ** Floats *)

Abbreviation float := spec_float.

(** binary64 arithmetic, as Python's [float] *)
Definition float_sub : float → float → float := SFsub 53 1024.

(** the literals [0] and [2] of the source, as binary64 values *)
Definition float_0 : float := S754_zero false.
Definition float_2 : float := S754_finite false 4503599627370496 (-51).


(** ** Exceptions *)

Inductive exn :=
| KeyError (key : Z)
| IndexError
| OSError (path : string)
| SystemExit (msg : string).

(** [for x in xs: body], where the body may raise *)
Fixpoint for_each {S A} (body : S → A → exn + S) (xs : list A) (s : S) : exn + S :=
  match xs with
  | [] => inr s
  | x :: xs' =>
      match body s x with
      | inl e => inl e
      | inr s' => for_each body xs' s'
      end
  end.

(** ** What the detection model returns *)

(** a box after [map(int, box)]: x1, y1, x2, y2 *)
Definition box : Type := Z * Z * Z * Z.

(** [r.boxes]: three parallel arrays; [cls] holds [int(cls)] *)
Record Boxes := { xyxy : list box; conf : list float; cls : list Z }.

(** one element [r] of [results] *)
Record Result := { boxes : Boxes; r_names : gmap Z string }.

(** the object [results]: iterable, indexable, with [.names] *)
Record Results := { names : gmap Z string; items : list Result }.

Definition detection : Type := box * float * Z.

(** Python's [zip] of three sequences: stops at the shortest *)
Fixpoint zip3 {A B C} (xs : list A) (ys : list B) (zs : list C) : list (A * B * C) :=
  match xs, ys, zs with
  | x :: xs', y :: ys', z :: zs' => (x, y, z) :: zip3 xs' ys' zs'
  | _, _, _ => []
  end.

(** [zip(r.boxes.xyxy, r.boxes.conf, r.boxes.cls)] *)
Definition detections (r : Result) : list detection :=
  zip3 (xyxy (boxes r)) (conf (boxes r)) (cls (boxes r)).

(** ** count_per_class *)

Definition sum_values (kvs : list (string * Z)) : Z :=
  foldr (λ kv acc, kv.2 + acc) 0 kvs.

(** [(k,v) for k,v in counts.items() if k != "__total"] *)
Definition items_but_total (counts : gmap string Z) : list (string * Z) :=
  filter (λ kv, kv.1 ≠ "__total"%string) (map_to_list counts).

(** lines 13-16: the body of the inner loop *)
Definition count_box (names : gmap Z string) (conf_thresh : float)
    (counts : gmap string Z) (d : detection) : exn + gmap string Z :=
  let '(box, conf, cls) := d in
  if SFltb conf conf_thresh then inr counts
  else
    match names !! cls with
    | None => inl (KeyError cls)
    | Some label => inr (<[label := default 0 (counts !! label) + 1]> counts)
    end.

(** lines 9-16: both loops *)
Definition tally (names : gmap Z string) (conf_thresh : float)
    (rs : list Result) (counts : gmap string Z) : exn + gmap string Z :=
  for_each (λ counts r, for_each (count_box names conf_thresh) (detections r) counts)
           rs counts.

Definition count_per_class (results : Results) (conf_thresh : float)
    : exn + gmap string Z :=
  match tally (names results) conf_thresh (items results) ∅ with
  | inl e => inl e
  | inr counts => inr (<["__total"%string := sum_values (items_but_total counts)]> counts)
  end.

(** ** Frames and annotate_frame *)

Inductive colour := White | Black.

(** the three f-strings of the source, unformatted *)
Inductive text :=
| BoxLabel (name : string) (conf : float)   (* f"{name} {conf*100:.0f}%" *)
| TotalLine (n : Z)                         (* f"Total: {n}" *)
| CountLine (k : string) (v : Z).           (* f"{k}: {v}" *)

(** OpenCV drawing calls; font face, scale and line type are not modelled *)
Inductive draw_op :=
| Rectangle (p1 p2 : Z * Z) (c : colour) (thickness : Z)
| PutText (t : text) (org : Z * Z) (c : colour) (thickness : Z).

(** a frame is the drawing calls applied so far to the image read *)
Definition Frame : Type := list draw_op.

Section Rendering.

(** [cv2.getTextSize(label, ...)[0]]: width and height *)
Variable getTextSize : text → Z * Z.

(** lines 24-31: the body of the loop *)
Definition annotate_box (names : gmap Z string) (conf_thresh : float)
    (frame : Frame) (d : detection) : exn + Frame :=
  let '(box, conf, cls) := d in
  if SFltb conf conf_thresh then inr frame
  else
    let '(x1, y1, x2, y2) := box in
    let frame := frame ++ [Rectangle (x1, y1) (x2, y2) White 2] in
    match names !! cls with
    | None => inl (KeyError cls)
    | Some name =>
        let label := BoxLabel name conf in
        let t_size := getTextSize label in
        let frame := frame ++ [Rectangle (x1, y1 - 18) (x1 + t_size.1 + 6, y1) White (-1)] in
        inr (frame ++ [PutText label (x1 + 3, y1 - 5) Black 1])
    end.

Definition annotate_frame (frame : Frame) (r : Result) (names : gmap Z string)
    (conf_thresh : float) : exn + Frame :=
  for_each (annotate_box names conf_thresh) (detections r) frame.

End Rendering.

(** ** Sorting the items of a dict *)

(** Python's order on [(str, int)] tuples: by the string, then by the int *)
Definition tuple_leb (a b : string * Z) : bool :=
  match String.compare a.1 b.1 with
  | Lt => true
  | Eq => a.2 <=? b.2
  | Gt => false
  end.

Definition tuple_le (a b : string * Z) : Prop := Is_true (tuple_leb a b).

#[global] Instance tuple_le_dec a b : Decision (tuple_le a b) := Is_true_dec _.

(** [sorted(...)]: the order is total, so the sorted list does not depend on
    the algorithm nor on the order the dict yields its items in *)
Definition sorted (kvs : list (string * Z)) : list (string * Z) :=
  merge_sort tuple_le kvs.

(** lines 103-107: the summary panel *)
Definition overlay_summary (frame : Frame) (counts : gmap string Z) : Frame :=
  let y := 24 in
  let frame :=
    frame ++ [Rectangle (10, 10)
                (260, 10 + 18 * (Z.min 10 (Z.of_nat (size counts)) + 1)) White (-1)] in
  let frame :=
    frame ++ [PutText (TotalLine (default 0 (counts !! "__total"%string))) (16, y) Black 2] in
  let y := y + 20 in
  (foldl (λ '(frame, y) '(k, v),
            (frame ++ [PutText (CountLine k v) (16, y) Black 1], y + 18))
         (frame, y) (sorted (items_but_total counts))).1.

(** ** The world [main] acts on *)

Inductive cell := CellStr (s : string) | CellInt (n : Z).

(** a row handed to [csv.writer.writerow] *)
Definition row : Type := list cell.

Inductive message :=
| MsgCounts (counts : gmap string Z)        (* print("Counts:", counts) *)
| MsgSavedCsv (path : string)               (* print("Saved CSV:", path) *)
| MsgSavedImage (path : string)             (* print("Saved image:", path) *)
| MsgSavingTo (path : string)               (* print("Saving to", path) *)
| MsgFinalCounts (counts : gmap string Z).  (* print("Final counts:", counts) *)

Inductive event :=
| Print (m : message)
| OpenW (path : string) (ok : bool)         (* open(path, "w") and its outcome *)
| Predict                                   (* one call of the model *)
| Imread (path : string)
| Imwrite (path : string) (img : Frame)
| CaptureOpen (src : Z + string)            (* cv2.VideoCapture(...) *)
| WriterOpen (path : string)                (* cv2.VideoWriter(...) *)
| NamedWindow
| CapRead (ok : bool)                       (* cap.read() and its flag *)
| WriterWrite (img : Frame)
| Imshow (img : Frame)
| CapRelease
| WriterRelease
| DestroyAllWindows.

Record world := { fs : gmap string (list row); trace : list event }.

Definition M (A : Type) : Type := world → world * (exn + A).

#[global] Instance M_ret : MRet M := λ A a w, (w, inr a).

#[global] Instance M_bind : MBind M := λ A B k m w,
  match m w with
  | (w', inl e) => (w', inl e)
  | (w', inr a) => k a w'
  end.

Definition raise {A} (e : exn) : M A := λ w, (w, inl e).

Definition lift {A} (r : exn + A) : M A := λ w, (w, r).

Definition emit (e : event) : M unit :=
  λ w, ({| fs := fs w; trace := trace w ++ [e] |}, inr tt).

Definition when (b : bool) (m : M unit) : M unit := if b then m else mret tt.

Fixpoint for_ {A} (xs : list A) (body : A → M unit) : M unit :=
  match xs with
  | [] => mret tt
  | x :: xs' => body x ;; for_ xs' body
  end.

(** [open(path, "w")]: truncates the file, or raises *)
Definition open_w (ok : bool) (path : string) : M unit :=
  λ w,
    if ok
    then ({| fs := <[path := []]> (fs w); trace := trace w ++ [OpenW path true] |}, inr tt)
    else ({| fs := fs w; trace := trace w ++ [OpenW path false] |}, inl (OSError path)).

(** [w.writerow(r)] on the file opened at [path] *)
Definition writerow (path : string) (r : row) : M unit :=
  λ w, ({| fs := alter (λ rows, rows ++ [r]) path (fs w); trace := trace w |}, inr tt).

(** ** save_counts_csv

    [ok] is the operating system's answer to the [open] of line 35. *)
Definition save_counts_csv (ok : bool) (counts : gmap string Z) (out_csv : string)
    : M unit :=
  open_w ok out_csv ;;
  writerow out_csv [CellStr "class"; CellStr "count"] ;;
  writerow out_csv [CellStr "total"; CellInt (default 0 (counts !! "__total"%string))] ;;
  for_ (sorted (items_but_total counts))
       (λ '(k, v), writerow out_csv [CellStr k; CellInt v]).

(** ** main *)

Record Args := {
  args_source : string;
  args_save : bool;
  args_csv : option string;   (* default None *)
  args_conf : float
}.

(** the truth value of [args.csv]: [None] and the empty string are false *)
Definition csv_dest (args : Args) : option string :=
  match args_csv args with
  | Some p => if decide (p = ""%string) then None else Some p
  | None => None
  end.

(** what one iteration of the loop is answered by its collaborators *)
Record Tick := {
  predicted : Results;     (* model.predict(frame, ...) *)
  waitKey : Z;             (* cv2.waitKey(1) *)
  clock_check : float;     (* time.time() on line 116 *)
  clock_stamp : float;     (* time.time() on line 118 *)
  csv_open_ok : bool       (* whether the open of line 35 succeeds *)
}.

Record Env := {
  still_results : Results; (* model(args.source, ...) *)
  still_open_ok : bool;    (* whether the open of line 35 succeeds *)
  isOpened : bool;         (* cap.isOpened() *)
  ticks : list Tick        (* the frames the source delivers before read fails *)
}.

(** [str.lower] on the ASCII letters, which is all that can produce one of
    the suffixes tested *)
Definition lower_ascii (c : ascii) : ascii :=
  let n := N_of_ascii c in
  if ((65 <=? n) && (n <=? 90))%N then ascii_of_N (n + 32) else c.

Fixpoint lower (s : string) : string :=
  match s with
  | EmptyString => EmptyString
  | String c s' => String (lower_ascii c) (lower s')
  end.

Definition endswith (s suffix : string) : bool :=
  let n := String.length s in
  let m := String.length suffix in
  (m <=? n)%nat && String.eqb (substring (n - m) m s) suffix.

(** line 54 *)
Definition is_still (source : string) : bool :=
  existsb (endswith (lower source))
    [".jpg"; ".jpeg"; ".png"; ".bmp"; ".webp"; ".tif"; ".tiff"]%string.

(** [results[0]] *)
Definition first_result (results : Results) : M Result :=
  match items results with
  | r0 :: _ => mret r0
  | [] => raise IndexError
  end.

Inductive flow := Break | Next.

Section Main.

Variable getTextSize : text → Z * Z.

(** [str(Path(source).with_stem(Path(source).stem + "_annotated"))] *)
Variable annotated_path : string → string.

(** lines 94-118: one iteration after a frame was read; the loop variables
    [last_counts] and [last_csv_time] go in and out *)
Definition loop_body (args : Args) (tk : Tick) (st : gmap string Z * float)
    : M (flow * (gmap string Z * float)) :=
  let '(last_counts, last_csv_time) := st in
  emit Predict ;;
  let results := predicted tk in
  r0 ← first_result results ;
  frame ← lift (annotate_frame getTextSize [] r0 (r_names r0) (args_conf args)) ;
  counts ← lift (count_per_class results (args_conf args)) ;
  let last_counts := counts in
  let frame := overlay_summary frame counts in
  when (args_save args) (emit (WriterWrite frame)) ;;
  emit (Imshow frame) ;;
  let key := Z.land (waitKey tk) 255 in
  if key =? 27 then mret (Break, (last_counts, last_csv_time))
  else
    match csv_dest args with
    | Some path =>
        if SFltb float_2 (float_sub (clock_check tk) last_csv_time)
        then
          save_counts_csv (csv_open_ok tk) counts path ;;
          mret (Next, (last_counts, clock_stamp tk))
        else mret (Next, (last_counts, last_csv_time))
    | None => mret (Next, (last_counts, last_csv_time))
    end.

(** lines 91-118: [while True] *)
Fixpoint stream_loop (args : Args) (tks : list Tick) (st : gmap string Z * float)
    : M (gmap string Z * float) :=
  match tks with
  | [] => emit (CapRead false) ;; mret st
  | tk :: tks' =>
      emit (CapRead true) ;;
      '(fl, st') ← loop_body args tk st ;
      match fl with
      | Break => mret st'
      | Next => stream_loop args tks' st'
      end
  end.

(** lines 120-125 *)
Definition close_stream (args : Args) (last_counts : gmap string Z) : M unit :=
  emit CapRelease ;;
  when (args_save args) (emit WriterRelease) ;;
  emit DestroyAllWindows ;;
  match csv_dest args with
  | Some path =>
      when (bool_decide (last_counts ≠ ∅))
           (emit (Print (MsgFinalCounts last_counts)) ;;
            emit (Print (MsgSavedCsv path)))
  | None => mret tt
  end.

(** lines 55-68 *)
Definition main_still (args : Args) (env : Env) : M unit :=
  emit Predict ;;
  let results := still_results env in
  counts ← lift (count_per_class results (args_conf args)) ;
  emit (Print (MsgCounts counts)) ;;
  match csv_dest args with
  | Some path =>
      save_counts_csv (still_open_ok env) counts path ;;
      emit (Print (MsgSavedCsv path))
  | None => mret tt
  end ;;
  when (args_save args)
       (emit (Imread (args_source args)) ;;
        r0 ← first_result results ;
        r0' ← first_result results ;
        annotated ← lift (annotate_frame getTextSize [] r0 (r_names r0') (args_conf args)) ;
        let out_path := annotated_path (args_source args) in
        emit (Imwrite out_path annotated) ;;
        emit (Print (MsgSavedImage out_path))).

(** lines 71-125 *)
Definition main_stream (args : Args) (env : Env) : M unit :=
  emit (CaptureOpen (if decide (args_source args = "0"%string)
                     then inl 0 else inr (args_source args))) ;;
  if negb (isOpened env) then raise (SystemExit "Could not open source")
  else
    when (args_save args)
         (emit (WriterOpen "annotated.mp4") ;;
          emit (Print (MsgSavingTo "annotated.mp4"))) ;;
    emit NamedWindow ;;
    '(last_counts, _) ← stream_loop args (ticks env) (∅, float_0) ;
    close_stream args last_counts.

Definition main (args : Args) (env : Env) : M unit :=
  if is_still (args_source args) then main_still args env
  else main_stream args env.

End Main.

(** a run from an empty file system *)
Definition world0 : world := {| fs := ∅; trace := [] |}.

(** ** Vocabulary of the properties *)

Definition neg_inf : float := S754_infinity true.

Definition conf_of (d : detection) : float := d.1.2.
Definition cls_of (d : detection) : Z := d.2.

(** the detections a loop does not skip: those for which [conf < conf_thresh]
    is false *)
Definition kept (conf_thresh : float) (ds : list detection) : list detection :=
  filter (λ d, SFltb (conf_of d) conf_thresh = false) ds.

(** the filter in the words of the specification:
    kept iff [confidence >= threshold] *)
Definition filter_spec (ds : list detection) (threshold : float) : list detection :=
  filter (λ d, SFleb threshold (conf_of d) = true) ds.

(** every detection of every [r], in the order [count_per_class] visits them *)
Definition all_detections (results : Results) : list detection :=
  flat_map detections (items results).

(** the labels the detections resolve to *)
Definition labels (names : gmap Z string) (ds : list detection) : list string :=
  omap (λ d, names !! cls_of d) ds.

(** [names[int(cls)]] finds a label for each detection *)
Definition resolved (names : gmap Z string) (ds : list detection) : Prop :=
  Forall (λ d, is_Some (names !! cls_of d)) ds.

Definition occurrences (l : string) (ls : list string) : Z :=
  Z.of_nat (length (filter (λ x, x = l) ls)).

(** line 16 *)
Definition bump (counts : gmap string Z) (label : string) : gmap string Z :=
  <[label := default 0 (counts !! label) + 1]> counts.

Definition bump_all (ls : list string) (counts : gmap string Z) : gmap string Z :=
  foldl bump counts ls.

(** [counts.get("__total", 0)], the total of a snapshot *)
Definition total (counts : gmap string Z) : Z :=
  default 0 (counts !! "__total"%string).

(** strictly increasing labels *)
Definition key_lt (a b : string * Z) : Prop := String.ltb a.1 b.1 = true.

(** the row written for one category *)
Definition category_row (kv : string * Z) : row := [CellStr kv.1; CellInt kv.2].

(** the rows of the file a successful [save_counts_csv] leaves *)
Definition csv_rows (counts : gmap string Z) : list row :=
  [CellStr "class"; CellStr "count"]
  :: [CellStr "total"; CellInt (total counts)]
  :: (category_row <$> sorted (items_but_total counts)).

(** the events a run appended to the trace it started from *)
Definition new_events (before after : world) : list event :=
  drop (length (trace before)) (trace after).

(** a run attempted to open a CSV file for writing *)
Definition attempted (before after : world) : Prop :=
  ∃ path ok, OpenW path ok ∈ new_events before after.

(** a computation that raises nothing *)
Definition succeeds {A} (r : exn + A) : Prop := ∃ a, r = inr a.

(** lines 94-107 of an iteration: the frame shown and the counts, or the
    exception of indexing, annotating or counting *)
Definition processed (getTextSize : text → Z * Z) (args : Args) (tk : Tick)
    : exn + (Frame * gmap string Z) :=
  match items (predicted tk) with
  | [] => inl IndexError
  | r0 :: _ =>
      match annotate_frame getTextSize [] r0 (r_names r0) (args_conf args) with
      | inl e => inl e
      | inr frame =>
          match count_per_class (predicted tk) (args_conf args) with
          | inl e => inl e
          | inr counts => inr (overlay_summary frame counts, counts)
          end
      end
  end.

(** the events of an iteration up to the key poll *)
Definition shown (args : Args) (frame : Frame) : list event :=
  [Predict] ++ (if args_save args then [WriterWrite frame] else []) ++ [Imshow frame].

(** the events of lines 71-87 when the source opens *)
Definition opening (args : Args) : list event :=
  [CaptureOpen (if decide (args_source args = "0"%string)
                then inl 0 else inr (args_source args))]
  ++ (if args_save args
      then [WriterOpen "annotated.mp4"; Print (MsgSavingTo "annotated.mp4")]
      else [])
  ++ [NamedWindow].

(** the events of lines 120-125 *)
Definition closing (args : Args) (last_counts : gmap string Z) : list event :=
  [CapRelease]
  ++ (if args_save args then [WriterRelease] else [])
  ++ [DestroyAllWindows]
  ++ match csv_dest args with
     | Some path =>
         if bool_decide (last_counts ≠ ∅)
         then [Print (MsgFinalCounts last_counts); Print (MsgSavedCsv path)]
         else []
     | None => []
     end.

(** a source that opens and delivers one frame *)
Definition one_frame (tk : Tick) : Env :=
  {| still_results := predicted tk; still_open_ok := true;
     isOpened := true; ticks := [tk] |}.

Definition is_open_w (e : event) : bool :=
  match e with OpenW _ _ => true | _ => false end.

(** the exit status of the process: 0 on return, 1 when [SystemExit] carries
    a message or an exception is not caught *)
Definition exit_status (r : exn + unit) : Z :=
  match r with
  | inr _ => 0
  | inl _ => 1
  end.

(** ** One iteration as a step relation

    The five ways an iteration that has read a frame can end, with the world
    it leaves and what it hands to the loop: an exception before anything is
    shown, a break on ESC, no snapshot due, a snapshot written, a snapshot
    whose file does not open. *)
Inductive step_outcome (getTextSize : text → Z * Z) (args : Args) (tk : Tick)
    (last_csv_time : float) (w : world)
    : world * (exn + (flow * (gmap string Z * float))) → Prop :=
| step_raised e :
    processed getTextSize args tk = inl e →
    step_outcome getTextSize args tk last_csv_time w
      ({| fs := fs w; trace := trace w ++ [Predict] |}, inl e)
| step_break frame counts :
    processed getTextSize args tk = inr (frame, counts) →
    Z.land (waitKey tk) 255 = 27 →
    step_outcome getTextSize args tk last_csv_time w
      ({| fs := fs w; trace := trace w ++ shown args frame |},
       inr (Break, (counts, last_csv_time)))
| step_idle frame counts :
    processed getTextSize args tk = inr (frame, counts) →
    Z.land (waitKey tk) 255 ≠ 27 →
    csv_dest args = None
    ∨ SFltb float_2 (float_sub (clock_check tk) last_csv_time) = false →
    step_outcome getTextSize args tk last_csv_time w
      ({| fs := fs w; trace := trace w ++ shown args frame |},
       inr (Next, (counts, last_csv_time)))
| step_saved frame counts path :
    processed getTextSize args tk = inr (frame, counts) →
    Z.land (waitKey tk) 255 ≠ 27 →
    csv_dest args = Some path →
    SFltb float_2 (float_sub (clock_check tk) last_csv_time) = true →
    csv_open_ok tk = true →
    step_outcome getTextSize args tk last_csv_time w
      ({| fs := <[path := csv_rows counts]> (fs w);
          trace := trace w ++ shown args frame ++ [OpenW path true] |},
       inr (Next, (counts, clock_stamp tk)))
| step_refused frame counts path :
    processed getTextSize args tk = inr (frame, counts) →
    Z.land (waitKey tk) 255 ≠ 27 →
    csv_dest args = Some path →
    SFltb float_2 (float_sub (clock_check tk) last_csv_time) = true →
    csv_open_ok tk = false →
    step_outcome getTextSize args tk last_csv_time w
      ({| fs := fs w; trace := trace w ++ shown args frame ++ [OpenW path false] |},
       inl (OSError path)).

(** ** Sample inputs *)

(** binary64 values of 0.9, 0.5, 0.2, 0.25 *)
Definition c_0_90 : float := S754_finite false 8106479329266893 (-53).
Definition c_0_50 : float := S754_finite false 4503599627370496 (-53).
Definition c_0_20 : float := S754_finite false 7205759403792794 (-55).
Definition c_0_25 : float := S754_finite false 4503599627370496 (-54).

(** binary64 values of 1.0, 2.1, 100.0, 100.5, 102.0 *)
Definition t_1 : float := S754_finite false 4503599627370496 (-52).
Definition t_2_1 : float := S754_finite false 4728779608739021 (-51).
Definition t_100 : float := S754_finite false 7036874417766400 (-46).
Definition t_100_5 : float := S754_finite false 7072058789855232 (-46).
Definition t_102 : float := S754_finite false 7177611906121728 (-46).

(** binary64 values of 101.0 and 102.1 *)
Definition t_101 : float := S754_finite false 7107243161944064 (-46).
Definition t_102_1 : float := S754_finite false 7184648780539494 (-46).

Definition sample_names : gmap Z string :=
  <[0 := "cat"%string]> (<[1 := "dog"%string]> (<[2 := "__total"%string]> ∅)).

(** the answer of the model with one [r] holding the given confidences and
    classes *)
Definition sample_results (confs : list float) (classes : list Z) : Results :=
  {| names := sample_names;
     items := [ {| boxes := {| xyxy := replicate (length confs) (0, 0, 10, 10);
                               conf := confs; cls := classes |};
                   r_names := sample_names |} ] |}.

(** cat 0.9, dog 0.2, cat 0.5 *)
Definition cat_dog_cat : Results :=
  sample_results [c_0_90; c_0_20; c_0_50] [0; 1; 0].

(** one detection of the class named "__total", and one cat *)
Definition reserved_and_cat : Results :=
  sample_results [c_0_90; c_0_50] [2; 0].

(** dog 0.9, dog 0.9, dog 0.5 *)
Definition three_dogs : Results :=
  sample_results [c_0_90; c_0_90; c_0_50] [1; 1; 1].

(** an iteration with no key pressed ([waitKey] answers -1) and a clock that
    does not advance while the file is written *)
Definition quiet_tick (results : Results) (clock : float) (ok : bool) : Tick :=
  {| predicted := results; waitKey := -1;
     clock_check := clock; clock_stamp := clock; csv_open_ok := ok |}.

(** [--source video.mp4 --csv out.csv] *)
Definition stream_args : Args :=
  {| args_source := "video.mp4"; args_save := false;
     args_csv := Some "out.csv"%string; args_conf := c_0_25 |}.

(** [--source photo.jpg --csv out.csv] *)
Definition still_args : Args :=
  {| args_source := "photo.jpg"; args_save := false;
     args_csv := Some "out.csv"%string; args_conf := c_0_25 |}.

(** a source that opens and delivers the given frames *)
Definition stream_env (tks : list Tick) : Env :=
  {| still_results := cat_dog_cat; still_open_ok := true;
     isOpened := true; ticks := tks |}.

(** a source that does not open *)
Definition closed_env : Env :=
  {| still_results := cat_dog_cat; still_open_ok := true;
     isOpened := false; ticks := [] |}.

(** three frames with clock readings 0, 1 and 2.1 *)
Definition clock_0_1_2 : list Tick :=
  [quiet_tick cat_dog_cat float_0 true;
   quiet_tick reserved_and_cat t_1 true;
   quiet_tick three_dogs t_2_1 true].

(** the frames of the debounce example, requested at t0 = 100, t0 + 1 and
    t0 + 2.1 *)
Definition clock_100_101_102 : list Tick :=
  [quiet_tick cat_dog_cat t_100 true;
   quiet_tick reserved_and_cat t_101 true;
   quiet_tick three_dogs t_102_1 true].

Definition sample_text_size (t : text) : Z * Z := (40, 10).

(** a plain file name with "_annotated" put before its last dot, if it has
    one *)
Fixpoint before_last_dot (s : string) : option string :=
  match s with
  | EmptyString => None
  | String c rest =>
      match before_last_dot rest with
      | Some r => Some (String c r)
      | None =>
          if Ascii.eqb c "."
          then Some ("_annotated" +:+ String c rest)%string
          else None
      end
  end.

(** line 65 on a plain file name with an extension: the stem, "_annotated",
    the extension *)
Definition sample_annotated_path (source : string) : string :=
  default (source +:+ "_annotated")%string (before_last_dot source).

(** ** Vocabulary of the further properties *)

(** the texts drawn on a frame, in drawing order *)
Definition drawn_texts (f : Frame) : list text :=
  omap (λ op, match op with PutText t _ _ _ => Some t | _ => None end) f.

(** the names on the box labels drawn on a frame, in drawing order *)
Definition drawn_names (f : Frame) : list string :=
  omap (λ op, match op with
              | PutText (BoxLabel name _) _ _ _ => Some name
              | _ => None
              end) f.

(** the line of the summary panel for one category *)
Definition count_line (kv : string * Z) : text := CountLine kv.1 kv.2.

(** the bottom edge of the summary panel *)
Definition panel_bottom (counts : gmap string Z) : Z :=
  10 + 18 * (Z.min 10 (Z.of_nat (size counts)) + 1).

(** kinds of events *)
Definition is_predict (e : event) : bool :=
  match e with Predict => true | _ => false end.

Definition is_frame_read (e : event) : bool :=
  match e with CapRead true => true | _ => false end.

Definition is_imshow (e : event) : bool :=
  match e with Imshow _ => true | _ => false end.

Definition is_writer_write (e : event) : bool :=
  match e with WriterWrite _ => true | _ => false end.

(** the events the loop of lines 91-118 can produce *)
Definition loop_event (e : event) : bool :=
  match e with
  | CapRead _ | Predict | WriterWrite _ | Imshow _ | OpenW _ _ => true
  | _ => false
  end.

Definition number_of (P : event → bool) (evs : list event) : nat :=
  length (filter P evs).

(** what the events of a run of the loop have in common *)
Definition loop_invariant (args : Args) (evs : list event) : Prop :=
  Forall loop_event evs
  ∧ number_of is_predict evs = number_of is_frame_read evs
  ∧ (number_of is_imshow evs ≤ number_of is_predict evs)%nat
  ∧ number_of is_writer_write evs
    = (if args_save args then number_of is_imshow evs else 0)%nat
  ∧ (number_of is_open_w evs ≤ number_of is_imshow evs)%nat.

(** the events that give a resource back *)
Definition is_teardown (e : event) : bool :=
  match e with CapRelease | WriterRelease | DestroyAllWindows => true | _ => false end.

(** binary64 value of 1.0, the largest confidence *)
Definition float_1 : float := S754_finite false 4503599627370496 (-52).

(** [frames] without a frame: the source opens and the first read fails *)
Definition no_frame : Env :=
  {| still_results := sample_results [] []; still_open_ok := true;
     isOpened := true; ticks := [] |}.

(** what an event of the loop may be when it writes a file: the snapshot
    file is the destination, and frames go to the video writer only with
    [--save] *)
Definition loop_write_ok (args : Args) (e : event) : Prop :=
  match e with
  | OpenW path _ => csv_dest args = Some path
  | WriterWrite _ => args_save args = true
  | WriterOpen _ | Imwrite _ _ => False
  | _ => True
  end.

(** what an event of [main] may be when it writes a file: the snapshot file
    is the destination; the video "annotated.mp4" is written only with
    [--save] on a stream; the annotated image, under the derived name, only
    with [--save] on a still *)
Definition write_ok (annotated_path : string → string) (args : Args) (e : event)
    : Prop :=
  match e with
  | OpenW path _ => csv_dest args = Some path
  | WriterOpen path =>
      args_save args = true ∧ is_still (args_source args) = false
      ∧ path = "annotated.mp4"%string
  | WriterWrite _ =>
      args_save args = true ∧ is_still (args_source args) = false
  | Imwrite path _ =>
      args_save args = true ∧ is_still (args_source args) = true
      ∧ path = annotated_path (args_source args)
  | _ => True
  end.

(** [--source video.mp4 --save --csv out.csv] and
    [--source photo.jpg --save --csv out.csv] *)
Definition stream_save_args : Args :=
  {| args_source := "video.mp4"; args_save := true;
     args_csv := Some "out.csv"%string; args_conf := c_0_25 |}.

Definition still_save_args : Args :=
  {| args_source := "photo.jpg"; args_save := true;
     args_csv := Some "out.csv"%string; args_conf := c_0_25 |}.

(** the suffixes of line 54 *)
Definition still_suffixes : list string :=
  [".jpg"; ".jpeg"; ".png"; ".bmp"; ".webp"; ".tif"; ".tiff"]%string.

(** [args] with another value of [--csv] *)
Definition with_csv (args : Args) (csv : option string) : Args :=
  {| args_source := args_source args; args_save := args_save args;
     args_csv := csv; args_conf := args_conf args |}.

(** dog 0.9, cat 0.9 and cat 0.9, dog 0.9 *)
Definition dog_then_cat : Results := sample_results [c_0_90; c_0_90] [1; 0].
Definition cat_then_dog : Results := sample_results [c_0_90; c_0_90] [0; 1].

(** a class without a name (7) between two cats *)
Definition cat_unknown_cat : Results :=
  sample_results [c_0_90; c_0_90; c_0_90] [0; 7; 0].

(** * Properties *)

(** ** Order of floats *)

Lemma SFltb_neg_inf x : SFltb x neg_inf = false.
Proof. by destruct x as [[]|[]| |[] ? ?]. Qed.

Ltac float_order :=
  repeat match goal with
  | |- context [Pos.compare_cont Eq ?a ?b] =>
      change (Pos.compare_cont Eq a b) with (a ?= b)%positive
  | H : context [Pos.compare_cont Eq ?a ?b] |- _ =>
      change (Pos.compare_cont Eq a b) with (a ?= b)%positive in H
  end;
  repeat match goal with
  | H : context [(?a ?= ?b)%Z] |- _ => destruct (Z.compare_spec a b); simpl in H
  | H : context [(?a ?= ?b)%positive] |- _ => destruct (Pos.compare_spec a b); simpl in H
  | |- context [(?a ?= ?b)%Z] => destruct (Z.compare_spec a b); simpl
  | |- context [(?a ?= ?b)%positive] => destruct (Pos.compare_spec a b); simpl
  end;
  try done; try lia.


Lemma SFltb_SFleb_trans c t1 t2 :
  SFltb c t1 = true → SFleb t1 t2 = true → SFltb c t2 = true.
Proof.
  unfold SFltb, SFleb.
  destruct c as [[]|[]| |[] mc ec], t1 as [[]|[]| |[] m1 e1], t2 as [[]|[]| |[] m2 e2];
    simpl; try done; intros H1 H2; float_order.
Qed.

(** ** Order of strings and of dict items *)

Lemma ascii_compare_lt_trans a b c :
  Ascii.compare a b = Lt → Ascii.compare b c = Lt → Ascii.compare a c = Lt.
Proof. unfold Ascii.compare. rewrite !N.compare_lt_iff. lia. Qed.

Lemma string_compare_refl s : String.compare s s = Eq.
Proof.
  induction s as [|a s IH]; simpl; [done|].
  unfold Ascii.compare. by rewrite N.compare_refl.
Qed.

Lemma string_compare_eq s1 s2 : String.compare s1 s2 = Eq ↔ s1 = s2.
Proof.
  split; [apply String.compare_eq_iff|intros ->; apply string_compare_refl].
Qed.

Lemma string_compare_lt_trans s1 s2 s3 :
  String.compare s1 s2 = Lt → String.compare s2 s3 = Lt → String.compare s1 s3 = Lt.
Proof.
  revert s2 s3.
  induction s1 as [|a s1 IH]; intros [|b s2] [|c s3]; simpl; try done.
  destruct (Ascii.compare a b) eqn:Hab; try done;
    destruct (Ascii.compare b c) eqn:Hbc; try done; intros H1 H2.
  - apply Ascii.compare_eq_iff in Hab, Hbc. subst.
    rewrite (proj2 (N.compare_eq_iff _ _) eq_refl : Ascii.compare c c = Eq). eauto.
  - apply Ascii.compare_eq_iff in Hab. subst. by rewrite Hbc.
  - apply Ascii.compare_eq_iff in Hbc. subst. by rewrite Hab.
  - by rewrite (ascii_compare_lt_trans _ _ _ Hab Hbc).
Qed.

#[global] Instance tuple_le_total : Total tuple_le.
Proof.
  intros [k1 v1] [k2 v2]. unfold tuple_le, tuple_leb; simpl.
  rewrite (String.compare_antisym k2 k1).
  destruct (String.compare k1 k2) eqn:E; simpl; auto.
  rewrite !Is_true_true, !Z.leb_le. lia.
Qed.

#[global] Instance tuple_le_trans : Transitive tuple_le.
Proof.
  intros [k1 v1] [k2 v2] [k3 v3]. unfold tuple_le, tuple_leb; simpl.
  destruct (String.compare k1 k2) eqn:E12; try done;
    destruct (String.compare k2 k3) eqn:E23; try done; intros H1 H2.
  - apply string_compare_eq in E12, E23. subst. rewrite string_compare_refl.
    apply Is_true_true. apply Is_true_true in H1, H2. rewrite Z.leb_le in *. lia.
  - apply string_compare_eq in E12. subst. by rewrite E23.
  - apply string_compare_eq in E23. subst. by rewrite E12.
  - by rewrite (string_compare_lt_trans _ _ _ E12 E23).
Qed.

Lemma sorted_perm kvs : sorted kvs ≡ₚ kvs.
Proof. apply merge_sort_Permutation. Qed.

Lemma sorted_strongly kvs : StronglySorted tuple_le (sorted kvs).
Proof. apply StronglySorted_merge_sort; apply _. Qed.

Lemma tuple_le_key_lt a b : tuple_le a b → a.1 ≠ b.1 → key_lt a b.
Proof.
  unfold tuple_le, tuple_leb, key_lt, String.ltb.
  destruct (String.compare a.1 b.1) eqn:E; try done.
  apply string_compare_eq in E. done.
Qed.

(** with distinct keys, the tuple order is the strict order of the keys *)
Lemma StronglySorted_key_lt kvs :
  NoDup kvs.*1 → StronglySorted tuple_le kvs → StronglySorted key_lt kvs.
Proof.
  induction kvs as [|a kvs IH]; simpl; intros Hnd Hs; [constructor|].
  apply NoDup_cons in Hnd as [Hn Hnd]. apply StronglySorted_inv in Hs as [Hs Hall].
  constructor; [by apply IH|].
  apply Forall_forall. intros b Hb. apply tuple_le_key_lt.
  - by apply (proj1 (Forall_forall _ _) Hall).
  - intros Heq. apply Hn. rewrite Heq. apply list_elem_of_fmap. by exists b.
Qed.

(** ** The loops skip exactly what is below the threshold *)

Lemma kept_neg_inf ds : kept neg_inf ds = ds.
Proof.
  unfold kept. induction ds as [|d ds IH]; [done|].
  rewrite filter_cons, decide_True by apply SFltb_neg_inf. by rewrite IH.
Qed.

Lemma for_each_app {S A} (body : S → A → exn + S) xs ys s :
  for_each body (xs ++ ys) s =
  match for_each body xs s with inl e => inl e | inr s' => for_each body ys s' end.
Proof.
  revert s. induction xs as [|x xs IH]; intros s; simpl; [done|].
  destruct (body s x); [done|apply IH].
Qed.

Lemma count_box_kept names t ds counts :
  for_each (count_box names t) ds counts =
  for_each (count_box names neg_inf) (kept t ds) counts.
Proof.
  revert counts. unfold kept.
  induction ds as [|[[b c] k] ds IH]; intros counts; [done|].
  rewrite filter_cons.
  destruct (decide (SFltb (conf_of (b, c, k)) t = false)) as [Hc|Hc];
    unfold conf_of in Hc; simpl in Hc; simpl.
  - rewrite Hc, SFltb_neg_inf. destruct (names !! k); [apply IH|done].
  - apply not_false_is_true in Hc. rewrite Hc. apply IH.
Qed.

Section RenderingFacts.

Variable getTextSize : text → Z * Z.

Lemma annotate_box_kept names t ds frame :
  for_each (annotate_box getTextSize names t) ds frame =
  for_each (annotate_box getTextSize names neg_inf) (kept t ds) frame.
Proof.
  revert frame. unfold kept.
  induction ds as [|[[[[[x1 y1] x2] y2] c] k] ds IH]; intros frame; [done|].
  rewrite filter_cons.
  case_decide as Hc; unfold conf_of in Hc; simpl in Hc; simpl.
  - rewrite Hc, SFltb_neg_inf. destruct (names !! k); [apply IH|done].
  - apply not_false_is_true in Hc. rewrite Hc. apply IH.
Qed.

End RenderingFacts.

Lemma tally_flat names t rs counts :
  tally names t rs counts = for_each (count_box names t) (flat_map detections rs) counts.
Proof.
  unfold tally. revert counts. induction rs as [|r rs IH]; intros counts; simpl; [done|].
  rewrite for_each_app. destruct (for_each _ (detections r) counts); [done|apply IH].
Qed.


(** ** What the counting loop computes *)

Lemma count_box_resolved names t ds counts :
  resolved names (kept t ds) →
  for_each (count_box names t) ds counts = inr (bump_all (labels names (kept t ds)) counts).
Proof.
  rewrite count_box_kept. generalize (kept t ds). clear ds. intros ds. revert counts.
  induction ds as [|[[b c] k] ds IH]; intros counts Hr; [done|].
  apply Forall_cons in Hr as [[l Hl] Hr]. unfold cls_of in Hl; simpl in Hl.
  simpl. rewrite SFltb_neg_inf, Hl. by apply IH.
Qed.

Lemma labels_length names ds : resolved names ds → length (labels names ds) = length ds.
Proof.
  induction 1 as [|d ds [l Hl] _ IH]; [done|].
  unfold labels in *; simpl. rewrite Hl; simpl. by f_equal.
Qed.

Lemma elem_of_labels names ds l :
  l ∈ labels names ds ↔ ∃ d, d ∈ ds ∧ names !! cls_of d = Some l.
Proof. unfold labels. apply list_elem_of_omap. Qed.

Lemma occurrences_cons l x ls :
  occurrences l (x :: ls) = (if decide (x = l) then 1 else 0) + occurrences l ls.
Proof.
  unfold occurrences. rewrite filter_cons. case_decide; simpl; lia.
Qed.

Lemma occurrences_nonneg l ls : 0 ≤ occurrences l ls.
Proof. unfold occurrences. lia. Qed.

Lemma occurrences_pos l ls : 0 < occurrences l ls ↔ l ∈ ls.
Proof.
  induction ls as [|x ls IH].
  - unfold occurrences; simpl. split; [lia|]. by intros ?%elem_of_nil.
  - rewrite occurrences_cons, elem_of_cons. pose proof (occurrences_nonneg l ls).
    case_decide as Hx; subst; split.
    + auto.
    + lia.
    + intros Hp. right. apply IH. lia.
    + intros [Heq|Hin]; [congruence|]. apply IH in Hin. lia.
Qed.

Lemma occurrences_split l ls :
  Z.of_nat (length ls) = occurrences l ls + Z.of_nat (length (filter (λ x, x ≠ l) ls)).
Proof.
  induction ls as [|x ls IH]; [done|].
  rewrite occurrences_cons, filter_cons. simpl length.
  destruct (decide (x = l)), (decide (x ≠ l)); simpl length; try done; lia.
Qed.

Lemma bump_all_lookup ls counts l :
  bump_all ls counts !! l =
  if decide (occurrences l ls = 0) then counts !! l
  else Some (default 0 (counts !! l) + occurrences l ls).
Proof.
  revert counts. induction ls as [|x ls IH]; intros counts.
  - by rewrite decide_True.
  - unfold bump_all in *; simpl. rewrite IH, occurrences_cons. unfold bump.
    pose proof (occurrences_nonneg l ls).
    destruct (decide (x = l)) as [->|Hne].
    + rewrite lookup_insert_eq. simpl.
      rewrite (decide_False (P := (1 + _ = 0))) by lia.
      case_decide as H0; [rewrite H0|]; f_equal; lia.
    + rewrite lookup_insert_ne by done. simpl. done.
Qed.

(** ** Sums over the items of a dict *)

#[global] Instance sum_values_perm : Proper ((≡ₚ) ==> (=)) sum_values.
Proof.
  intros l1 l2 Hp. unfold sum_values.
  induction Hp as [|x l l' _ IH|x y l|l l' l'' _ IH1 _ IH2]; simpl; [done|..]; lia.
Qed.

Lemma filter_keys_all (k : string) (m : gmap string Z) :
  m !! k = None → filter (λ kv, kv.1 ≠ k) (map_to_list m) = map_to_list m.
Proof.
  intros Hk.
  assert (Forall (λ kv : string * Z, kv.1 ≠ k) (map_to_list m)) as Hall.
  { apply Forall_forall. intros [i x] Hin Heq. simpl in Heq. subst i.
    apply elem_of_map_to_list in Hin. congruence. }
  induction Hall as [|kv l Hkv _ IH]; [done|].
  rewrite filter_cons, decide_True by done. by rewrite IH.
Qed.

Lemma items_but_total_delete (counts : gmap string Z) :
  items_but_total counts ≡ₚ map_to_list (delete "__total"%string counts).
Proof.
  unfold items_but_total.
  destruct (counts !! "__total"%string) as [x|] eqn:Hx.
  - rewrite <- (map_to_list_delete counts _ x Hx).
    rewrite filter_cons, decide_False by (simpl; auto).
    by rewrite filter_keys_all by apply lookup_delete_eq.
  - by rewrite delete_id, filter_keys_all.
Qed.

Lemma items_but_total_lookup (m : gmap string Z) k v :
  (k, v) ∈ items_but_total m ↔ k ≠ "__total"%string ∧ m !! k = Some v.
Proof.
  unfold items_but_total. rewrite list_elem_of_filter, elem_of_map_to_list. done.
Qed.

Lemma items_but_total_insert_total (m : gmap string Z) v :
  items_but_total (<["__total"%string := v]> m) ≡ₚ items_but_total m.
Proof. by rewrite !items_but_total_delete, delete_insert_eq. Qed.

Lemma sum_items_insert_total (m : gmap string Z) v :
  sum_values (items_but_total (<["__total"%string := v]> m))
  = sum_values (items_but_total m).
Proof. by rewrite items_but_total_insert_total. Qed.

Lemma NoDup_items_but_total (counts : gmap string Z) : NoDup (items_but_total counts).*1.
Proof.
  unfold items_but_total.
  pose proof (NoDup_fst_map_to_list counts) as H.
  induction (map_to_list counts) as [|[k v] l IH]; simpl; [constructor|].
  apply NoDup_cons in H as [H1 H2].
  rewrite filter_cons. case_decide; simpl; [|by apply IH].
  constructor; [|by apply IH].
  intros Hin. apply H1. apply list_elem_of_fmap in Hin as [kv [-> Hin]].
  apply list_elem_of_filter in Hin as [_ Hin]. apply list_elem_of_fmap. by exists kv.
Qed.

Lemma sum_values_insert (m : gmap string Z) l v :
  sum_values (map_to_list (<[l := v]> m)) =
  sum_values (map_to_list m) - default 0 (m !! l) + v.
Proof.
  destruct (m !! l) as [x|] eqn:Hl; simpl.
  - rewrite <- (insert_delete_eq m), map_to_list_insert by apply lookup_delete_eq.
    rewrite <- (map_to_list_delete m l x Hl). simpl. lia.
  - rewrite map_to_list_insert by done. simpl. lia.
Qed.

Lemma sum_items_insert (m : gmap string Z) l v :
  sum_values (items_but_total (<[l := v]> m)) =
  if decide (l = "__total"%string) then sum_values (items_but_total m)
  else sum_values (items_but_total m) - default 0 (m !! l) + v.
Proof.
  case_decide as Hl; rewrite !items_but_total_delete.
  - subst. by rewrite delete_insert_eq.
  - rewrite delete_insert_ne by done. rewrite sum_values_insert.
    by rewrite lookup_delete_ne.
Qed.

Lemma sum_items_bump_all ls counts :
  sum_values (items_but_total (bump_all ls counts)) =
  sum_values (items_but_total counts)
  + Z.of_nat (length (filter (λ l, l ≠ "__total"%string) ls)).
Proof.
  revert counts. induction ls as [|l ls IH]; intros counts; [simpl; lia|].
  unfold bump_all in *. simpl foldl. rewrite IH. unfold bump.
  rewrite sum_items_insert, filter_cons.
  destruct (decide (l = "__total"%string)), (decide (l ≠ "__total"%string));
    try done; simpl length; lia.
Qed.

Lemma sum_all_bump_all ls counts :
  sum_values (map_to_list (bump_all ls counts)) =
  sum_values (map_to_list counts) + Z.of_nat (length ls).
Proof.
  revert counts. induction ls as [|l ls IH]; intros counts; [simpl; lia|].
  unfold bump_all in *. simpl foldl. rewrite IH. unfold bump.
  rewrite sum_values_insert. simpl length. lia.
Qed.

(** the dict [count_per_class] returns, when every counted class has a name *)
Lemma count_per_class_resolved results t :
  let ls := labels (names results) (kept t (all_detections results)) in
  resolved (names results) (kept t (all_detections results)) →
  tally (names results) t (items results) ∅ = inr (bump_all ls ∅) ∧
  count_per_class results t =
    inr (<["__total"%string :=
            Z.of_nat (length (filter (λ l, l ≠ "__total"%string) ls))]> (bump_all ls ∅)).
Proof.
  intros ls Hr. unfold count_per_class.
  rewrite tally_flat, (count_box_resolved _ _ _ _ Hr). split; [done|].
  fold (all_detections results). fold ls.
  rewrite sum_items_bump_all. unfold items_but_total at 1.
  rewrite map_to_list_empty. simpl. done.
Qed.

(** ** The scenarios of the specification *)

(** cat 0.9, dog 0.2, cat 0.5 at threshold 0.25: two cats, total 2 *)
Example scenario_cat_dog_cat :
  count_per_class cat_dog_cat c_0_25
  = inr (<["__total"%string := 2]> {["cat"%string := 2]}).
Proof. by vm_compute. Qed.

(** no detection: only the total, 0, and a panel with the total line alone *)
Example scenario_no_detection :
  count_per_class (sample_results [] []) c_0_25 = inr {["__total"%string := 0]}
  ∧ overlay_summary [] {["__total"%string := 0]}
    = [Rectangle (10, 10) (260, 46) White (-1);
       PutText (TotalLine 0) (16, 24) Black 2].
Proof. by vm_compute. Qed.

(** a confidence equal to the threshold is counted *)
Example scenario_at_threshold :
  count_per_class (sample_results [c_0_25] [1]) c_0_25
  = inr (<["__total"%string := 1]> {["dog"%string := 1]}).
Proof. by vm_compute. Qed.

(** ** The detection filter *)



Lemma kept_length_antitone ds t1 t2 :
  SFleb t1 t2 = true → (length (kept t2 ds) ≤ length (kept t1 ds))%nat.
Proof.
  intros Hle. unfold kept. induction ds as [|d ds IH]; [done|].
  rewrite !filter_cons.
  destruct (decide (SFltb (conf_of d) t2 = false)) as [H2|H2],
           (decide (SFltb (conf_of d) t1 = false)) as [H1|H1]; simpl; try lia.
  apply not_false_is_true in H1.
  by rewrite (SFltb_SFleb_trans _ _ _ H1 Hle) in H2.
Qed.

Lemma kept_resolved_antitone names ds t1 t2 :
  SFleb t1 t2 = true → resolved names (kept t1 ds) → resolved names (kept t2 ds).
Proof.
  intros Hle. unfold resolved, kept. rewrite !Forall_forall.
  intros Hr d [Hd Hin]%list_elem_of_filter. apply Hr. apply list_elem_of_filter.
  split; [|done].
  destruct (SFltb (conf_of d) t1) eqn:H1; [|done].
  by rewrite (SFltb_SFleb_trans _ _ _ H1 Hle) in Hd.
Qed.

(** C8: for thresholds [t1 <= t2], no more detections are accepted at [t2]
    than at [t1]; and when the classes counted at [t1] have names, the
    counting loop run at both thresholds tallies these numbers. *)
Theorem accepted_count_antitone (nm : gmap Z string) (ds : list detection)
    (t1 t2 : float) :
  SFleb t1 t2 = true →
  (length (kept t2 ds) ≤ length (kept t1 ds))%nat
  ∧ (resolved nm (kept t1 ds) →
     ∃ c1 c2,
       for_each (count_box nm t1) ds ∅ = inr c1
       ∧ for_each (count_box nm t2) ds ∅ = inr c2
       ∧ sum_values (map_to_list c1) = Z.of_nat (length (kept t1 ds))
       ∧ sum_values (map_to_list c2) = Z.of_nat (length (kept t2 ds))
       ∧ sum_values (map_to_list c2) ≤ sum_values (map_to_list c1)).
Proof.
  intros Hle.
  pose proof (kept_length_antitone ds _ _ Hle) as Hlen.
  split; [done|]. intros Hr1.
  pose proof (kept_resolved_antitone _ _ _ _ Hle Hr1) as Hr2.
  eexists _, _. split; [by apply count_box_resolved|].
  split; [by apply count_box_resolved|].
  rewrite !sum_all_bump_all, !labels_length, map_to_list_empty by done.
  simpl. lia.
Qed.

Lemma accepted_count_antitone_witness :
  SFleb c_0_25 c_0_50 = true
  ∧ (length (kept c_0_50 (all_detections cat_dog_cat))
     ≤ length (kept c_0_25 (all_detections cat_dog_cat)))%nat
  ∧ ∃ c1 c2,
      for_each (count_box sample_names c_0_25) (all_detections cat_dog_cat) ∅ = inr c1
      ∧ for_each (count_box sample_names c_0_50) (all_detections cat_dog_cat) ∅ = inr c2
      ∧ sum_values (map_to_list c1)
        = Z.of_nat (length (kept c_0_25 (all_detections cat_dog_cat)))
      ∧ sum_values (map_to_list c2)
        = Z.of_nat (length (kept c_0_50 (all_detections cat_dog_cat)))
      ∧ sum_values (map_to_list c2) ≤ sum_values (map_to_list c1).
Proof.
  assert (SFleb c_0_25 c_0_50 = true) as H1 by reflexivity.
  assert (resolved sample_names (kept c_0_25 (all_detections cat_dog_cat))) as H2.
  { repeat constructor; by eexists. }
  destruct (accepted_count_antitone sample_names (all_detections cat_dog_cat)
              c_0_25 c_0_50 H1) as [Hlen Hrun].
  split; [exact H1|]. split; [exact Hlen|]. exact (Hrun H2).
Defined.

(** ** The snapshot *)

Lemma total_insert counts v : total (<["__total"%string := v]> counts) = v.
Proof. unfold total. by rewrite lookup_insert_eq. Qed.

Lemma filter_ne_all (l : string) (ls : list string) :
  l ∉ ls → filter (λ x, x ≠ l) ls = ls.
Proof.
  induction ls as [|x ls IH]; [done|].
  intros Hin. apply not_elem_of_cons in Hin as [Hne Hin].
  rewrite filter_cons, decide_True by done. by rewrite IH.
Qed.

Lemma items_but_total_only_total v :
  items_but_total (<["__total"%string := v]> ∅) = [].
Proof.
  apply Permutation_nil_r.
  by rewrite items_but_total_delete, delete_insert_eq, delete_empty, map_to_list_empty.
Qed.

(** C3, as the code has it: a detection whose class is named "__total" is
    accepted and then lost, so the total is not the number accepted. *)
Lemma reserved_label_not_counted :
  count_per_class reserved_and_cat c_0_25
    = inr (<["__total"%string := 1]> {["cat"%string := 1]})
  ∧ length (kept c_0_25 (all_detections reserved_and_cat)) = 2%nat
  ∧ length (filter_spec (all_detections reserved_and_cat) c_0_25) = 2%nat.
Proof. by vm_compute. Qed.

(** C3 (amended): the total of the snapshot is the sum of its per-category
    counts; that sum is the number of accepted detections provided none of
    them resolves to the label "__total"; with nothing accepted the
    per-category items are empty and the total is 0. *)
Theorem snapshot_total (results : Results) (t : float) :
  resolved (names results) (kept t (all_detections results)) →
  ∃ counts,
    count_per_class results t = inr counts
    ∧ total counts = sum_values (items_but_total counts)
    ∧ ("__total"%string ∉ labels (names results) (kept t (all_detections results)) →
       sum_values (items_but_total counts)
       = Z.of_nat (length (kept t (all_detections results))))
    ∧ (kept t (all_detections results) = [] →
       items_but_total counts = [] ∧ total counts = 0).
Proof.
  intros Hr.
  destruct (count_per_class_resolved results t Hr) as [_ Hc].
  eexists. split; [exact Hc|].
  rewrite total_insert, sum_items_insert_total, sum_items_bump_all.
  unfold items_but_total at 1 2. rewrite map_to_list_empty. simpl.
  split; [done|]. split.
  - intros Hno. by rewrite filter_ne_all, labels_length.
  - intros HK. rewrite HK in *. simpl. split; [|done].
    apply items_but_total_only_total.
Qed.

Lemma snapshot_total_witness :
  resolved (names cat_dog_cat) (kept c_0_25 (all_detections cat_dog_cat))
  ∧ ("__total"%string
     ∉ labels (names cat_dog_cat) (kept c_0_25 (all_detections cat_dog_cat)))
  ∧ ∃ counts,
      count_per_class cat_dog_cat c_0_25 = inr counts
      ∧ total counts = sum_values (items_but_total counts)
      ∧ sum_values (items_but_total counts)
        = Z.of_nat (length (kept c_0_25 (all_detections cat_dog_cat))).
Proof.
  assert (resolved (names cat_dog_cat) (kept c_0_25 (all_detections cat_dog_cat))) as H1.
  { repeat constructor; by eexists. }
  assert ("__total"%string
          ∉ labels (names cat_dog_cat) (kept c_0_25 (all_detections cat_dog_cat))) as H2.
  { vm_compute. intros H. repeat (apply elem_of_cons in H as [H|H]; [discriminate H|]).
    by apply elem_of_nil in H. }
  split; [exact H1|]. split; [exact H2|].
  destruct (snapshot_total cat_dog_cat c_0_25 H1) as (counts & Hc & Htot & Hsum & _).
  exists counts. split; [exact Hc|]. split; [exact Htot|]. exact (Hsum H2).
Defined.

(** C9, as the code has it: the key "__total" is in the dict returned with
    the count 0, and the accepted detection that resolves to "__total" has no
    per-category item. *)
Lemma reserved_label_without_item :
  count_per_class (sample_results [c_0_90] [2]) c_0_25
    = inr {["__total"%string := 0]}
  ∧ items_but_total {["__total"%string := 0]} = []
  ∧ labels sample_names (kept c_0_25 (all_detections (sample_results [c_0_90] [2])))
    = ["__total"%string].
Proof. by vm_compute. Qed.

(** C9 (amended): for every label other than "__total", the label is a key
    of the dict returned iff an accepted detection resolves to it, and its
    count is then the number of such detections, at least 1. Before line 17
    stores the total, this holds of every key of the tally. *)
Theorem category_keys (results : Results) (t : float) :
  resolved (names results) (kept t (all_detections results)) →
  ∃ pre counts,
    tally (names results) t (items results) ∅ = inr pre
    ∧ count_per_class results t = inr counts
    ∧ (∀ l, is_Some (pre !! l) ↔
            ∃ d, d ∈ kept t (all_detections results) ∧ names results !! cls_of d = Some l)
    ∧ (∀ l v, pre !! l = Some v → 1 ≤ v)
    ∧ (∀ l, l ≠ "__total"%string →
         ((∃ v, (l, v) ∈ items_but_total counts) ↔
          ∃ d, d ∈ kept t (all_detections results) ∧ names results !! cls_of d = Some l)
         ∧ (is_Some (counts !! l) ↔ ∃ v, (l, v) ∈ items_but_total counts)
         ∧ ∀ v, counts !! l = Some v →
             1 ≤ v
             ∧ v = occurrences l (labels (names results) (kept t (all_detections results)))).
Proof.
  intros Hr.
  destruct (count_per_class_resolved results t Hr) as [Hpre Hc].
  set (ls := labels (names results) (kept t (all_detections results))) in *.
  assert (∀ l, is_Some (bump_all ls ∅ !! l) ↔ l ∈ ls) as Hkey.
  { intros l. rewrite bump_all_lookup, lookup_empty, <- occurrences_pos.
    pose proof (occurrences_nonneg l ls).
    case_decide as H0; split; intros Hs; try lia; try done. }
  assert (∀ l v, bump_all ls ∅ !! l = Some v → 1 ≤ v ∧ v = occurrences l ls) as Hval.
  { intros l v. rewrite bump_all_lookup, lookup_empty.
    pose proof (occurrences_nonneg l ls).
    case_decide as H0; [done|]. simpl. intros [= <-]. lia. }
  eexists _, _. split; [exact Hpre|]. split; [exact Hc|].
  split; [intros l; rewrite Hkey; apply elem_of_labels|].
  split; [intros l v Hv; by apply Hval in Hv as [? _]|].
  intros l Hl.
  assert (∀ v, (l, v) ∈ items_but_total
                 (<["__total"%string := Z.of_nat
                      (length (filter (λ l0, l0 ≠ "__total"%string) ls))]> (bump_all ls ∅))
               ↔ bump_all ls ∅ !! l = Some v) as Hitem.
  { intros v. rewrite items_but_total_lookup, lookup_insert_ne by done. tauto. }
  split; [|split].
  - rewrite <- elem_of_labels. fold ls. rewrite <- Hkey. unfold is_Some.
    by setoid_rewrite Hitem.
  - rewrite lookup_insert_ne by done. unfold is_Some. by setoid_rewrite Hitem.
  - intros v. rewrite lookup_insert_ne by done. apply Hval.
Qed.

Lemma category_keys_witness :
  resolved (names cat_dog_cat) (kept c_0_25 (all_detections cat_dog_cat))
  ∧ ∃ pre counts,
      tally (names cat_dog_cat) c_0_25 (items cat_dog_cat) ∅ = inr pre
      ∧ count_per_class cat_dog_cat c_0_25 = inr counts
      ∧ (∀ l, is_Some (pre !! l) ↔
              ∃ d, d ∈ kept c_0_25 (all_detections cat_dog_cat)
                   ∧ names cat_dog_cat !! cls_of d = Some l)
      ∧ (∀ l v, pre !! l = Some v → 1 ≤ v)
      ∧ (∀ l, l ≠ "__total"%string →
           ((∃ v, (l, v) ∈ items_but_total counts) ↔
            ∃ d, d ∈ kept c_0_25 (all_detections cat_dog_cat)
                 ∧ names cat_dog_cat !! cls_of d = Some l)
           ∧ (is_Some (counts !! l) ↔ ∃ v, (l, v) ∈ items_but_total counts)
           ∧ ∀ v, counts !! l = Some v →
               1 ≤ v
               ∧ v = occurrences l
                       (labels (names cat_dog_cat)
                          (kept c_0_25 (all_detections cat_dog_cat)))).
Proof.
  assert (resolved (names cat_dog_cat) (kept c_0_25 (all_detections cat_dog_cat))) as H1.
  { repeat constructor; by eexists. }
  split; [exact H1|].
  exact (category_keys cat_dog_cat c_0_25 H1).
Defined.

(** ** save_counts_csv *)

Lemma writerow_insert path r (m : gmap string (list row)) rows tr :
  writerow path r {| fs := <[path := rows]> m; trace := tr |}
  = ({| fs := <[path := rows ++ [r]]> m; trace := tr |}, inr tt).
Proof. unfold writerow. simpl. by rewrite alter_insert_eq. Qed.

Lemma for_writerow path kvs (m : gmap string (list row)) rows tr :
  for_ kvs (λ '(k, v), writerow path [CellStr k; CellInt v])
       {| fs := <[path := rows]> m; trace := tr |}
  = ({| fs := <[path := rows ++ (category_row <$> kvs)]> m; trace := tr |}, inr tt).
Proof.
  revert rows. induction kvs as [|[k v] kvs IH]; intros rows; simpl.
  - by rewrite app_nil_r.
  - unfold mbind, M_bind. rewrite writerow_insert, IH.
    by rewrite <- app_assoc.
Qed.

Lemma save_counts_csv_opened counts path w :
  save_counts_csv true counts path w
  = ({| fs := <[path := csv_rows counts]> (fs w);
        trace := trace w ++ [OpenW path true] |}, inr tt).
Proof.
  unfold save_counts_csv, mbind, M_bind, open_w.
  by rewrite !writerow_insert, for_writerow.
Qed.

Lemma save_counts_csv_refused counts path w :
  save_counts_csv false counts path w
  = ({| fs := fs w; trace := trace w ++ [OpenW path false] |}, inl (OSError path)).
Proof. done. Qed.

Lemma sorted_items_key_lt counts : StronglySorted key_lt (sorted (items_but_total counts)).
Proof.
  apply StronglySorted_key_lt; [|apply sorted_strongly].
  rewrite sorted_perm. apply NoDup_items_but_total.
Qed.

(** a dict as [count_per_class] returns it, and the file written from it over
    an older file *)
Lemma csv_rows_sample :
  fs (save_counts_csv true
        (<["dog"%string := 1]> (<["cat"%string := 2]> {["__total"%string := 3]}))
        "out.csv"
        {| fs := {["out.csv"%string := [[CellStr "stale"]]]}; trace := [] |}).1
  !! "out.csv"%string
  = Some [ [CellStr "class"; CellStr "count"];
           [CellStr "total"; CellInt 3];
           [CellStr "cat"; CellInt 2];
           [CellStr "dog"; CellInt 1] ].
Proof. by vm_compute. Qed.

(** C4: [save_counts_csv], once the file opens, leaves in it exactly the
    header row [class,count], the row [total,N] with N the total of the
    snapshot, then one row [label,count] per category in strictly increasing
    order of the labels; what the file held before is gone, and no other file
    changes. *)
Theorem csv_serialization (counts : gmap string Z) (path : string) (w : world) :
  ∃ w' cats,
    save_counts_csv true counts path w = (w', inr tt)
    ∧ fs w' !! path
      = Some ([CellStr "class"; CellStr "count"]
              :: [CellStr "total"; CellInt (total counts)]
              :: (category_row <$> cats))
    ∧ cats ≡ₚ items_but_total counts
    ∧ (∀ k v, (k, v) ∈ cats ↔ k ≠ "__total"%string ∧ counts !! k = Some v)
    ∧ StronglySorted key_lt cats
    ∧ (∀ p, p ≠ path → fs w' !! p = fs w !! p)
    ∧ (∀ w2, fs (save_counts_csv true counts path w2).1 !! path = fs w' !! path).
Proof.
  eexists _, (sorted (items_but_total counts)).
  split; [apply save_counts_csv_opened|]. simpl.
  split; [by rewrite lookup_insert_eq|].
  split; [apply sorted_perm|].
  split; [intros k v; by rewrite sorted_perm, items_but_total_lookup|].
  split; [apply sorted_items_key_lt|].
  split; [intros p Hp; by rewrite lookup_insert_ne|].
  intros w2. rewrite save_counts_csv_opened. simpl. by rewrite !lookup_insert_eq.
Qed.

(** ** The reserved key *)

(** C10: the total is stored in the dict of the counts under the key
    "__total". Accepted detections whose label is "__total" are tallied
    under that key and line 17 overwrites their tally with the sum of the
    other keys: they are missing from the total and from the category rows
    of the CSV file, and the total differs from the number of accepted
    detections as soon as there is one. *)
Theorem reserved_key_collision (results : Results) (t : float) (path : string)
    (w : world) :
  resolved (names results) (kept t (all_detections results)) →
  ∃ pre counts cats,
    tally (names results) t (items results) ∅ = inr pre
    ∧ count_per_class results t = inr counts
    ∧ counts = <["__total"%string := sum_values (items_but_total pre)]> pre
    ∧ (0 < occurrences "__total" (labels (names results) (kept t (all_detections results))) →
       pre !! "__total"%string
       = Some (occurrences "__total"
                 (labels (names results) (kept t (all_detections results)))))
    ∧ total counts
      = Z.of_nat (length (kept t (all_detections results)))
        - occurrences "__total" (labels (names results) (kept t (all_detections results)))
    ∧ fs (save_counts_csv true counts path w).1 !! path
      = Some ([CellStr "class"; CellStr "count"]
              :: [CellStr "total"; CellInt (total counts)]
              :: (category_row <$> cats))
    ∧ Forall (λ kv, kv.1 ≠ "__total"%string) cats
    ∧ (0 < occurrences "__total" (labels (names results) (kept t (all_detections results))) →
       total counts ≠ Z.of_nat (length (kept t (all_detections results)))).
Proof.
  intros Hr.
  destruct (count_per_class_resolved results t Hr) as [Hpre Hc].
  set (ls := labels (names results) (kept t (all_detections results))) in *.
  pose proof (occurrences_split "__total" ls) as Hsplit.
  unfold ls at 1 in Hsplit. rewrite labels_length in Hsplit by done. fold ls in Hsplit.
  assert (sum_values (items_but_total (bump_all ls ∅))
          = Z.of_nat (length (filter (λ l, l ≠ "__total"%string) ls))) as Hsum.
  { rewrite sum_items_bump_all. unfold items_but_total at 1.
    by rewrite map_to_list_empty. }
  eexists _, _, (sorted (items_but_total _)).
  split; [exact Hpre|]. split; [exact Hc|].
  split; [by rewrite Hsum|].
  split.
  { intros Hpos. rewrite bump_all_lookup, lookup_empty, decide_False by lia.
    done. }
  rewrite total_insert.
  split; [lia|].
  split.
  { rewrite save_counts_csv_opened. simpl. rewrite lookup_insert_eq.
    unfold csv_rows. by rewrite total_insert. }
  split; [|lia].
  apply Forall_forall. intros [k v]. rewrite sorted_perm, items_but_total_lookup.
  by intros [? _].
Qed.

Lemma reserved_key_collision_witness :
  resolved (names reserved_and_cat) (kept c_0_25 (all_detections reserved_and_cat))
  ∧ ∃ pre counts cats,
      tally (names reserved_and_cat) c_0_25 (items reserved_and_cat) ∅ = inr pre
      ∧ count_per_class reserved_and_cat c_0_25 = inr counts
      ∧ counts = <["__total"%string := sum_values (items_but_total pre)]> pre
      ∧ (0 < occurrences "__total"
               (labels (names reserved_and_cat)
                  (kept c_0_25 (all_detections reserved_and_cat))) →
         pre !! "__total"%string
         = Some (occurrences "__total"
                   (labels (names reserved_and_cat)
                      (kept c_0_25 (all_detections reserved_and_cat)))))
      ∧ total counts
        = Z.of_nat (length (kept c_0_25 (all_detections reserved_and_cat)))
          - occurrences "__total"
              (labels (names reserved_and_cat)
                 (kept c_0_25 (all_detections reserved_and_cat)))
      ∧ fs (save_counts_csv true counts "out.csv" world0).1 !! "out.csv"%string
        = Some ([CellStr "class"; CellStr "count"]
                :: [CellStr "total"; CellInt (total counts)]
                :: (category_row <$> cats))
      ∧ Forall (λ kv, kv.1 ≠ "__total"%string) cats
      ∧ (0 < occurrences "__total"
               (labels (names reserved_and_cat)
                  (kept c_0_25 (all_detections reserved_and_cat))) →
         total counts
         ≠ Z.of_nat (length (kept c_0_25 (all_detections reserved_and_cat)))).
Proof.
  assert (resolved (names reserved_and_cat)
            (kept c_0_25 (all_detections reserved_and_cat))) as H1.
  { repeat constructor; by eexists. }
  split; [exact H1|].
  exact (reserved_key_collision reserved_and_cat c_0_25 "out.csv" world0 H1).
Defined.

(** ** One iteration of the stream loop *)

Lemma new_events_app w f evs :
  new_events w {| fs := f; trace := trace w ++ evs |} = evs.
Proof. unfold new_events. simpl. by rewrite drop_app_length. Qed.

Lemma shown_no_open_w args frame path ok : OpenW path ok ∉ shown args frame.
Proof.
  unfold shown. destruct (args_save args); simpl; intros H;
    repeat (apply elem_of_cons in H as [H|H]; [discriminate H|]);
    by apply elem_of_nil in H.
Qed.

Section StreamFacts.

Variable getTextSize : text → Z * Z.
Variable annotated_path : string → string.

(** the iteration of the source ends in one of the five ways *)
Lemma loop_body_outcome args tk lc last w :
  step_outcome getTextSize args tk last w (loop_body getTextSize args tk (lc, last) w).
Proof.
  destruct args as [src sv csv cf], w as [f tr].
  unfold loop_body, first_result, mbind, M_bind, mret, M_ret, lift, emit, when, raise.
  simpl.
  destruct (items (predicted tk)) as [|r0 rs] eqn:Hitems; simpl.
  { apply step_raised. unfold processed. by rewrite Hitems. }
  destruct (annotate_frame getTextSize [] r0 (r_names r0) cf) as [e|frame] eqn:Ha; simpl.
  { apply step_raised. unfold processed. simpl. by rewrite Hitems, Ha. }
  destruct (count_per_class (predicted tk) cf) as [e|counts] eqn:Hc; simpl.
  { apply step_raised. unfold processed. simpl. by rewrite Hitems, Ha, Hc. }
  assert (processed getTextSize (Build_Args src sv csv cf) tk
          = inr (overlay_summary frame counts, counts)) as Hp.
  { unfold processed. simpl. by rewrite Hitems, Ha, Hc. }
  set (shown_frame := overlay_summary frame counts) in *.
  destruct sv; simpl;
    (destruct (Z.eqb_spec (Z.land (waitKey tk) 255) 27) as [Hk|Hk];
     [ rewrite <- !app_assoc; exact (step_break _ _ _ _ _ shown_frame counts Hp Hk) |]);
    (destruct (csv_dest _) as [path|] eqn:Hd;
     [| rewrite <- !app_assoc;
        exact (step_idle _ _ _ _ _ shown_frame counts Hp Hk (or_introl Hd)) ]);
    (destruct (SFltb float_2 _) eqn:Hdue;
     [| rewrite <- !app_assoc;
        exact (step_idle _ _ _ _ _ shown_frame counts Hp Hk (or_intror Hdue)) ]);
    destruct (csv_open_ok tk) eqn:Hok;
    rewrite ?save_counts_csv_opened, ?save_counts_csv_refused; simpl;
    rewrite <- !app_assoc;
    first [ exact (step_saved _ _ _ _ _ shown_frame counts path Hp Hk Hd Hdue Hok)
          | exact (step_refused _ _ _ _ _ shown_frame counts path Hp Hk Hd Hdue Hok) ].
Qed.

(** a snapshot is attempted in exactly the last two ways *)
Lemma step_outcome_attempted args tk last w r :
  step_outcome getTextSize args tk last w r →
  attempted w r.1 ↔
    succeeds (processed getTextSize args tk)
    ∧ Z.land (waitKey tk) 255 ≠ 27
    ∧ is_Some (csv_dest args)
    ∧ SFltb float_2 (float_sub (clock_check tk) last) = true.
Proof.
  unfold attempted.
  intros [e Hp|frame counts Hp Hk|frame counts Hp Hk Hidle
          |frame counts path Hp Hk Hd Hdue Hok|frame counts path Hp Hk Hd Hdue Hok];
    cbn [fst]; rewrite new_events_app.
  - split.
    + intros (p & ok & H). apply list_elem_of_singleton in H. discriminate H.
    + intros ([? H] & _). congruence.
  - split.
    + intros (p & ok & H). by apply shown_no_open_w in H.
    + intros (_ & H & _). done.
  - split.
    + intros (p & ok & H). by apply shown_no_open_w in H.
    + intros (_ & _ & [? Hd] & Hdue). destruct Hidle; congruence.
  - split; [intros _; split; [by eexists|by rewrite Hd]|].
    intros _. exists path, true. apply elem_of_app. right. by apply list_elem_of_singleton.
  - split; [intros _; split; [by eexists|by rewrite Hd]|].
    intros _. exists path, false. apply elem_of_app. right. by apply list_elem_of_singleton.
Qed.

(** the timestamp handed to the next iteration *)
Lemma step_outcome_timestamp args tk last w w' fl lc' last' :
  step_outcome getTextSize args tk last w (w', inr (fl, (lc', last'))) →
  (attempted w w' → last' = clock_stamp tk ∧ csv_open_ok tk = true)
  ∧ (¬ attempted w w' → last' = last).
Proof.
  intros H. pose proof (step_outcome_attempted _ _ _ _ _ H) as Hatt. simpl in Hatt.
  inversion H as [|frame counts Hp Hk|frame counts Hp Hk Hidle
                  |frame counts path Hp Hk Hd Hdue Hok|]; subst.
  - split; [|done]. intros (_ & Hk' & _)%Hatt. done.
  - split; [|done]. intros (_ & _ & [? Hd] & Hdue)%Hatt. destruct Hidle; congruence.
  - split; [done|]. intros Hn. destruct Hn. apply Hatt.
    split; [by eexists|by rewrite Hd].
Qed.

Lemma step_outcome_trace args tk last w r :
  step_outcome getTextSize args tk last w r →
  ∃ evs, trace r.1 = trace w ++ evs.
Proof. intros []; simpl; eauto. Qed.

Lemma closing_no_open_w args lc path ok : OpenW path ok ∉ closing args lc.
Proof.
  unfold closing.
  destruct (args_save args), (csv_dest args), (bool_decide (lc ≠ ∅)); simpl; intros H;
    repeat (apply elem_of_cons in H as [H|H]; [discriminate H|]);
    by apply elem_of_nil in H.
Qed.

Lemma opening_no_open_w args path ok : OpenW path ok ∉ opening args.
Proof.
  unfold opening.
  destruct (args_save args); simpl; intros H;
    repeat (apply elem_of_cons in H as [H|H]; [discriminate H|]);
    by apply elem_of_nil in H.
Qed.

(** lines 120-125 write no file *)
Lemma close_stream_closing args lc w :
  close_stream args lc w
  = ({| fs := fs w; trace := trace w ++ closing args lc |}, inr tt).
Proof.
  destruct w as [f tr].
  unfold close_stream, closing, mbind, M_bind, mret, M_ret, emit, when. simpl.
  destruct (args_save args), (csv_dest args), (bool_decide (lc ≠ ∅)); simpl;
    by rewrite <- ?app_assoc.
Qed.

(** lines 71-87 when the source opens, up to the loop *)
Lemma main_stream_opened args env w :
  isOpened env = true →
  main_stream getTextSize args env w
  = match stream_loop getTextSize args (ticks env) (∅, float_0)
            {| fs := fs w; trace := trace w ++ opening args |} with
    | (w', inl e) => (w', inl e)
    | (w', inr (last_counts, _)) => close_stream args last_counts w'
    end.
Proof.
  intros Hop. destruct w as [f tr].
  unfold main_stream, opening, mbind, M_bind, mret, M_ret, emit, when. simpl.
  rewrite Hop. simpl.
  destruct (args_save args); simpl; rewrite <- ?app_assoc; simpl;
    by destruct (stream_loop _ _ _ _ _) as [w' [e|[lc ?]]].
Qed.

(** the two equations of the loop *)
Lemma stream_loop_nil args st w :
  stream_loop getTextSize args [] st w
  = ({| fs := fs w; trace := trace w ++ [CapRead false] |}, inr st).
Proof. done. Qed.

Lemma stream_loop_cons args tk rest st w :
  stream_loop getTextSize args (tk :: rest) st w
  = match loop_body getTextSize args tk st
            {| fs := fs w; trace := trace w ++ [CapRead true] |} with
    | (w', inl e) => (w', inl e)
    | (w', inr (Break, st')) => (w', inr st')
    | (w', inr (Next, st')) => stream_loop getTextSize args rest st' w'
    end.
Proof.
  cbn [stream_loop]. unfold mbind, M_bind, mret, M_ret, emit. cbn [fs trace].
  by destruct (loop_body getTextSize args tk st _) as [w' [e|[[|] st']]].
Qed.

(** a run over one frame: the events around those of its iteration open no
    file *)
Lemma main_stream_one_frame args tk w :
  ∃ tail,
    (∀ path ok, OpenW path ok ∉ tail)
    ∧ trace (main_stream getTextSize args (one_frame tk) w).1
      = trace (loop_body getTextSize args tk (∅, float_0)
                 {| fs := fs w; trace := trace w ++ opening args ++ [CapRead true] |}).1
        ++ tail.
Proof.
  rewrite main_stream_opened by done.
  change (ticks (one_frame tk)) with [tk].
  rewrite stream_loop_cons. cbn [fs trace]. rewrite <- app_assoc.
  destruct (loop_body getTextSize args tk _ _) as [w2 [e|[[|] [lc last']]]].
  - exists []. split; [intros ?? H; by apply elem_of_nil in H|by rewrite app_nil_r].
  - rewrite close_stream_closing. cbn [fst trace]. eexists. split; [|done].
    intros ??. apply closing_no_open_w.
  - rewrite stream_loop_nil, close_stream_closing. cbn [fst trace].
    rewrite <- app_assoc.
    eexists. split; [|done].
    intros ?? [H|H]%elem_of_cons; [discriminate H|]. by apply closing_no_open_w in H.
Qed.

End StreamFacts.

(** ** Debounce *)

(** while the clock reads more than 2, the initial timestamp 0 takes
    nothing off the reading *)
Lemma float_sub_initial c : SFltb float_2 c = true → float_sub c float_0 = c.
Proof. by destruct c as [[]|[]| |[] m e]. Qed.

(** C5, as the code has it: a frame that comes exactly 2 after the last
    write (102 after 100) has the interval elapsed and is not written: the
    one write of the run is that of the first frame. *)
Lemma debounce_example_differs :
  float_sub t_102 t_100 = float_2
  ∧ SFleb float_2 (float_sub t_102 t_100) = true
  ∧ filter is_open_w
      (trace (main sample_text_size sample_annotated_path stream_args
                (stream_env [quiet_tick cat_dog_cat t_100 true]) world0).1)
    = [OpenW "out.csv" true]
  ∧ filter is_open_w
      (trace (main sample_text_size sample_annotated_path stream_args
                (stream_env [quiet_tick cat_dog_cat t_100 true;
                             quiet_tick three_dogs t_102 true]) world0).1)
    = [OpenW "out.csv" true].
Proof. by vm_compute. Qed.

(** C5 (amended): an iteration attempts a snapshot write iff it gets as far
    as line 116 (the frame is processed and the key polled is not ESC), a
    destination is configured, and strictly more than 2 has elapsed on the
    clock since the timestamp of the last write; that timestamp is the clock
    reading taken after a write and is otherwise kept. The first frame is
    always due, whatever its clock reading above 2. For writes requested at
    100, 101 and 102.1 the writes are those of 100 and 102.1, not 101. *)
Theorem debounce_rule (getTextSize : text → Z * Z) (args : Args) (tk : Tick)
    (lc : gmap string Z) (last : float) (w : world) :
  (attempted w (loop_body getTextSize args tk (lc, last) w).1
   ↔ succeeds (processed getTextSize args tk)
     ∧ Z.land (waitKey tk) 255 ≠ 27
     ∧ is_Some (csv_dest args)
     ∧ SFltb float_2 (float_sub (clock_check tk) last) = true)
  ∧ (∀ w' fl lc' last',
       loop_body getTextSize args tk (lc, last) w = (w', inr (fl, (lc', last'))) →
       (attempted w w' → last' = clock_stamp tk ∧ csv_open_ok tk = true)
       ∧ (¬ attempted w w' → last' = last))
  ∧ (SFltb float_2 (clock_check tk) = true →
     (attempted w (main_stream getTextSize args (one_frame tk) w).1
      ↔ succeeds (processed getTextSize args tk)
        ∧ Z.land (waitKey tk) 255 ≠ 27
        ∧ is_Some (csv_dest args)))
  ∧ filter is_open_w
      (trace (main sample_text_size sample_annotated_path stream_args
                (stream_env (take 1 clock_100_101_102)) world0).1)
    = [OpenW "out.csv" true]
  ∧ filter is_open_w
      (trace (main sample_text_size sample_annotated_path stream_args
                (stream_env (take 2 clock_100_101_102)) world0).1)
    = [OpenW "out.csv" true]
  ∧ filter is_open_w
      (trace (main sample_text_size sample_annotated_path stream_args
                (stream_env clock_100_101_102) world0).1)
    = [OpenW "out.csv" true; OpenW "out.csv" true].
Proof.
  split; [apply step_outcome_attempted, loop_body_outcome|].
  split.
  { intros w' fl lc' last' Hrun. apply (step_outcome_timestamp getTextSize args tk last w w' fl lc').
    rewrite <- Hrun. apply loop_body_outcome. }
  split; [|by vm_compute].
  intros Hclock.
  destruct (main_stream_one_frame getTextSize args tk w) as (tail & Htail & Htrace).
  set (w1 := {| fs := fs w; trace := trace w ++ opening args ++ [CapRead true] |}) in *.
  pose proof (loop_body_outcome getTextSize args tk ∅ float_0 w1) as Hstep.
  transitivity (attempted w1 (loop_body getTextSize args tk (∅, float_0) w1).1).
  2:{ rewrite (step_outcome_attempted _ _ _ _ _ _ Hstep).
      rewrite (float_sub_initial _ Hclock), Hclock. tauto. }
  destruct (step_outcome_trace _ _ _ _ _ _ Hstep) as [evs Hevs].
  assert (new_events w1 (loop_body getTextSize args tk (∅, float_0) w1).1 = evs) as H1.
  { unfold new_events. rewrite Hevs. apply drop_app_length. }
  assert (new_events w (main_stream getTextSize args (one_frame tk) w).1
          = opening args ++ [CapRead true] ++ evs ++ tail) as H2.
  { unfold new_events. rewrite Htrace, Hevs. unfold w1. cbn [trace].
    rewrite <- !app_assoc. apply drop_app_length. }
  unfold attempted. rewrite H1, H2.
  split; intros (path & ok & H); exists path, ok.
  - apply elem_of_app in H as [H|H]; [by apply opening_no_open_w in H|].
    apply elem_of_app in H as [H|H];
      [apply list_elem_of_singleton in H; discriminate H|].
    apply elem_of_app in H as [H|H]; [done|by apply Htail in H].
  - apply elem_of_app. right. apply elem_of_app. right. apply elem_of_app. by left.
Qed.

(** ** The end of a stream *)

(** C1, on the code: lines 120-125 open no file, whatever the arguments
    and the last counts. So in a run over two frames 0.5 apart with a
    destination, where the first frame is written and the second is not due,
    "Saved CSV" is printed while the file still holds the counts of the first
    frame (total 2), not the last counts (total 3). *)
Theorem final_write_missing :
  (∀ args last_counts w,
     ∃ evs,
       close_stream args last_counts w
       = ({| fs := fs w; trace := trace w ++ evs |}, inr tt)
       ∧ ∀ path ok, OpenW path ok ∉ evs)
  ∧ ∃ w' f1 f2 last_counts,
      main sample_text_size sample_annotated_path stream_args
        (stream_env [quiet_tick cat_dog_cat t_100 true;
                     quiet_tick three_dogs t_100_5 true]) world0
      = (w', inr tt)
      ∧ count_per_class three_dogs c_0_25 = inr last_counts
      ∧ trace w'
        = [CaptureOpen (inr "video.mp4"%string); NamedWindow;
           CapRead true; Predict; Imshow f1; OpenW "out.csv" true;
           CapRead true; Predict; Imshow f2;
           CapRead false;
           CapRelease; DestroyAllWindows;
           Print (MsgFinalCounts last_counts); Print (MsgSavedCsv "out.csv")]
      ∧ fs w' !! "out.csv"%string
        = Some [ [CellStr "class"; CellStr "count"];
                 [CellStr "total"; CellInt 2];
                 [CellStr "cat"; CellInt 2] ]
      ∧ csv_rows last_counts
        = [ [CellStr "class"; CellStr "count"];
            [CellStr "total"; CellInt 3];
            [CellStr "dog"; CellInt 3] ].
Proof.
  split.
  - intros args last_counts w. exists (closing args last_counts).
    split; [apply close_stream_closing|]. intros path ok. apply closing_no_open_w.
  - vm_compute. eexists _, _, _, _. by repeat split.
Qed.

(** ** A source that does not open *)

(** C6: when the frame source does not open, the run ends with
    [SystemExit] and status 1 having only tried to open the source: no
    video writer, no window, no frame read, no call of the model, no file
    touched. *)
Theorem source_unavailable (getTextSize : text → Z * Z)
    (annotated_path : string → string) (args : Args) (env : Env) (w : world) :
  is_still (args_source args) = false →
  isOpened env = false →
  ∃ w',
    main getTextSize annotated_path args env w
    = (w', inl (SystemExit "Could not open source"))
    ∧ exit_status (main getTextSize annotated_path args env w).2 = 1
    ∧ fs w' = fs w
    ∧ new_events w w'
      = [CaptureOpen (if decide (args_source args = "0"%string)
                      then inl 0 else inr (args_source args))]
    ∧ ∀ e, e ∈ new_events w w' →
        (∀ path, e ≠ WriterOpen path)
        ∧ e ≠ NamedWindow
        ∧ (∀ ok, e ≠ CapRead ok)
        ∧ e ≠ Predict
        ∧ (∀ img, e ≠ WriterWrite img)
        ∧ (∀ img, e ≠ Imshow img)
        ∧ (∀ path ok, e ≠ OpenW path ok).
Proof.
  intros Hstill Hclosed.
  unfold main, main_stream, mbind, M_bind, emit, raise.
  rewrite Hstill, Hclosed. simpl.
  eexists. split; [done|]. split; [done|]. split; [done|].
  rewrite new_events_app. split; [done|].
  intros e ->%list_elem_of_singleton. by repeat split.
Qed.

Lemma source_unavailable_witness :
  is_still (args_source stream_args) = false
  ∧ isOpened closed_env = false
  ∧ ∃ w',
      main sample_text_size sample_annotated_path stream_args closed_env world0
      = (w', inl (SystemExit "Could not open source"))
      ∧ exit_status
          (main sample_text_size sample_annotated_path stream_args closed_env world0).2
        = 1
      ∧ fs w' = fs world0
      ∧ new_events world0 w'
        = [CaptureOpen (if decide (args_source stream_args = "0"%string)
                        then inl 0 else inr (args_source stream_args))]
      ∧ ∀ e, e ∈ new_events world0 w' →
          (∀ path, e ≠ WriterOpen path)
          ∧ e ≠ NamedWindow
          ∧ (∀ ok, e ≠ CapRead ok)
          ∧ e ≠ Predict
          ∧ (∀ img, e ≠ WriterWrite img)
          ∧ (∀ img, e ≠ Imshow img)
          ∧ (∀ path ok, e ≠ OpenW path ok).
Proof.
  split; [reflexivity|]. split; [reflexivity|].
  apply (source_unavailable sample_text_size sample_annotated_path
           stream_args closed_env world0); reflexivity.
Defined.

(** ** A snapshot file that does not open *)

(** C7, as the code has it: the file does not open in the first iteration;
    the run ends there with the [OSError], the second frame is never read
    and nothing is released. *)
Lemma write_failure_stops_stream :
  ∃ f1,
    main sample_text_size sample_annotated_path stream_args
      (stream_env [quiet_tick cat_dog_cat t_100 false;
                   quiet_tick three_dogs t_100_5 true]) world0
    = ({| fs := ∅;
          trace := [CaptureOpen (inr "video.mp4"%string); NamedWindow;
                    CapRead true; Predict; Imshow f1; OpenW "out.csv" false] |},
       inl (OSError "out.csv")).
Proof. vm_compute. by eexists. Qed.

(** C7 (amended): a snapshot file that does not open is fatal during
    streaming as it is in a still run. In the loop the [OSError] leaves the
    iteration, the loop and [main]: no further frame is read, the file
    system is unchanged and lines 120-125 do not run; in a still run it
    ends the run after the counts are printed. *)
Theorem write_failure_is_fatal (getTextSize : text → Z * Z)
    (annotated_path : string → string) (args : Args) (path : string)
    (tk : Tick) (rest : list Tick) (frame : Frame) (counts : gmap string Z)
    (lc : gmap string Z) (last : float) (w : world) :
  csv_dest args = Some path →
  processed getTextSize args tk = inr (frame, counts) →
  Z.land (waitKey tk) 255 ≠ 27 →
  SFltb float_2 (float_sub (clock_check tk) last) = true →
  csv_open_ok tk = false →
  stream_loop getTextSize args (tk :: rest) (lc, last) w
  = ({| fs := fs w;
        trace := trace w ++ [CapRead true] ++ shown args frame ++ [OpenW path false] |},
     inl (OSError path))
  ∧ (∀ env,
       isOpened env = true → ticks env = tk :: rest → last = float_0 →
       main_stream getTextSize args env w
       = ({| fs := fs w;
             trace := trace w ++ opening args ++ [CapRead true]
                      ++ shown args frame ++ [OpenW path false] |},
          inl (OSError path)))
  ∧ (∀ env still_counts,
       count_per_class (still_results env) (args_conf args) = inr still_counts →
       still_open_ok env = false →
       main_still getTextSize annotated_path args env w
       = ({| fs := fs w;
             trace := trace w ++ [Predict; Print (MsgCounts still_counts);
                                  OpenW path false] |},
          inl (OSError path))).
Proof.
  intros Hd Hp Hk Hdue Hok.
  assert (∀ lc0 w0, loop_body getTextSize args tk (lc0, last) w0
                = ({| fs := fs w0;
                      trace := trace w0 ++ shown args frame ++ [OpenW path false] |},
                   inl (OSError path))) as Hbody.
  { intros lc0 w0.
    pose proof (loop_body_outcome getTextSize args tk lc0 last w0) as Hstep.
    inversion Hstep as [e Hp'|f' c' Hp' Hk'|f' c' Hp' Hk' Hidle
                        |f' c' p' Hp' Hk' Hd' Hdue' Hok'|f' c' p' Hp' Hk' Hd' Hdue' Hok'];
      try congruence.
    - destruct Hidle; congruence.
    - rewrite Hp in Hp'. rewrite Hd in Hd'. by simplify_eq. }
  assert (∀ lc0 w0, stream_loop getTextSize args (tk :: rest) (lc0, last) w0
                = ({| fs := fs w0;
                      trace := trace w0 ++ [CapRead true] ++ shown args frame
                               ++ [OpenW path false] |},
                   inl (OSError path))) as Hloop.
  { intros lc0 w0. rewrite stream_loop_cons, Hbody. cbn [fs trace].
    by rewrite <- app_assoc. }
  split; [apply Hloop|]. split.
  - intros env Hop Hticks ->.
    rewrite main_stream_opened, Hticks, Hloop by done. cbn [fs trace].
    by rewrite <- app_assoc.
  - intros env still_counts Hc Hno. destruct w as [f tr].
    unfold main_still, mbind, M_bind, mret, M_ret, lift, emit, when.
    rewrite Hc, Hd, Hno. simpl. by rewrite <- !app_assoc.
Qed.

Lemma write_failure_is_fatal_witness :
  csv_dest stream_args = Some "out.csv"%string
  ∧ succeeds (processed sample_text_size stream_args (quiet_tick cat_dog_cat t_100 false))
  ∧ Z.land (waitKey (quiet_tick cat_dog_cat t_100 false)) 255 ≠ 27
  ∧ SFltb float_2 (float_sub (clock_check (quiet_tick cat_dog_cat t_100 false)) float_0)
    = true
  ∧ csv_open_ok (quiet_tick cat_dog_cat t_100 false) = false
  ∧ ∃ frame,
      stream_loop sample_text_size stream_args
        [quiet_tick cat_dog_cat t_100 false; quiet_tick three_dogs t_100_5 true]
        (∅, float_0) world0
      = ({| fs := ∅;
            trace := [CapRead true] ++ shown stream_args frame
                     ++ [OpenW "out.csv" false] |},
         inl (OSError "out.csv")).
Proof.
  assert (∃ frame counts,
            processed sample_text_size stream_args (quiet_tick cat_dog_cat t_100 false)
            = inr (frame, counts)) as (frame & counts & Hp).
  { vm_compute. by eexists _, _. }
  split; [reflexivity|]. split; [by eexists|].
  split; [by vm_compute|]. split; [reflexivity|]. split; [reflexivity|].
  exists frame.
  exact (proj1 (write_failure_is_fatal sample_text_size sample_annotated_path
                  stream_args "out.csv" (quiet_tick cat_dog_cat t_100 false)
                  [quiet_tick three_dogs t_100_5 true] frame counts ∅ float_0 world0
                  eq_refl Hp ltac:(by vm_compute) eq_refl eq_refl)).
Defined.

(** * Further properties of the code *)

(** ** count_per_class: missing names *)

Lemma resolved_split names ds :
  ¬ resolved names ds →
  ∃ pre d post, ds = pre ++ d :: post ∧ resolved names pre ∧ names !! cls_of d = None.
Proof.
  induction ds as [|d ds IH]; intros Hn.
  - destruct Hn. constructor.
  - destruct (names !! cls_of d) as [l|] eqn:Hd.
    + destruct IH as (pre & d' & post & -> & Hpre & Hd').
      { intros Hr. apply Hn. constructor; [by rewrite Hd|done]. }
      exists (d :: pre), d', post. split; [done|]. split; [|done].
      constructor; [by rewrite Hd|done].
    + exists [], d, ds. split; [done|]. split; [constructor|done].
Qed.

Lemma count_box_first_unnamed names t ds counts pre d post :
  kept t ds = pre ++ d :: post →
  resolved names pre →
  names !! cls_of d = None →
  for_each (count_box names t) ds counts = inl (KeyError (cls_of d)).
Proof.
  intros HK Hpre Hd. rewrite count_box_kept, HK, for_each_app.
  rewrite <- (kept_neg_inf pre) in Hpre.
  rewrite (count_box_resolved _ _ _ _ Hpre).
  destruct d as [[b c] k]. unfold cls_of in Hd. simpl in *.
  by rewrite SFltb_neg_inf, Hd.
Qed.

(** X1: [count_per_class] returns iff every detection it does not skip has
    a class with a name; otherwise it raises [KeyError] with the class of
    the first such detection without one. The class of a skipped detection
    is never looked up. *)
Theorem count_per_class_key_error (results : Results) (t : float) :
  ((∃ counts, count_per_class results t = inr counts)
   ↔ resolved (names results) (kept t (all_detections results)))
  ∧ (∀ e, count_per_class results t = inl e
          ↔ ∃ pre d post,
              kept t (all_detections results) = pre ++ d :: post
              ∧ resolved (names results) pre
              ∧ names results !! cls_of d = None
              ∧ e = KeyError (cls_of d)).
Proof.
  assert (∀ pre d post,
            kept t (all_detections results) = pre ++ d :: post →
            resolved (names results) pre →
            names results !! cls_of d = None →
            count_per_class results t = inl (KeyError (cls_of d))) as Hraise.
  { intros pre d post HK Hpre Hd. unfold count_per_class.
    by rewrite tally_flat, (count_box_first_unnamed _ _ _ _ _ _ _ HK Hpre Hd). }
  assert (∀ e, count_per_class results t = inl e →
            ¬ resolved (names results) (kept t (all_detections results))) as Hnot.
  { intros e He Hr. destruct (count_per_class_resolved results t Hr) as [_ Hc].
    congruence. }
  split; [split|].
  - intros [counts Hc].
    destruct (decide (resolved (names results) (kept t (all_detections results))))
      as [Hr|Hr]; [done|].
    destruct (resolved_split _ _ Hr) as (pre & d & post & HK & Hpre & Hd).
    rewrite (Hraise _ _ _ HK Hpre Hd) in Hc. discriminate Hc.
  - intros Hr. destruct (count_per_class_resolved results t Hr) as [_ Hc]. eauto.
  - intros e. split.
    + intros He.
      destruct (resolved_split _ _ (Hnot _ He)) as (pre & d & post & HK & Hpre & Hd).
      exists pre, d, post. repeat (split; [done|]).
      rewrite (Hraise _ _ _ HK Hpre Hd) in He. congruence.
    + intros (pre & d & post & HK & Hpre & Hd & ->). by eapply Hraise.
Qed.

(** a class without a name raises when it is counted, not when it is skipped *)
Example unnamed_class_sample :
  count_per_class cat_unknown_cat c_0_25 = inl (KeyError 7)
  ∧ count_per_class (sample_results [c_0_90; c_0_20; c_0_90] [0; 7; 0]) c_0_25
    = inr (<["__total"%string := 2]> {["cat"%string := 2]}).
Proof. by vm_compute. Qed.

(** ** count_per_class: the order of the detections *)

Lemma occurrences_perm l ls1 ls2 : ls1 ≡ₚ ls2 → occurrences l ls1 = occurrences l ls2.
Proof. intros Hp. unfold occurrences. by rewrite Hp. Qed.

Lemma bump_all_perm ls1 ls2 counts :
  ls1 ≡ₚ ls2 → bump_all ls1 counts = bump_all ls2 counts.
Proof.
  intros Hp. apply map_eq. intros l.
  by rewrite !bump_all_lookup, (occurrences_perm l _ _ Hp).
Qed.

(** X2: the dict returned depends only on how often each label is accepted,
    not on the order of the detections nor on how they are spread over the
    elements of [results]. *)
Theorem count_per_class_order (results1 results2 : Results) (t1 t2 : float) :
  resolved (names results1) (kept t1 (all_detections results1)) →
  resolved (names results2) (kept t2 (all_detections results2)) →
  labels (names results1) (kept t1 (all_detections results1))
    ≡ₚ labels (names results2) (kept t2 (all_detections results2)) →
  count_per_class results1 t1 = count_per_class results2 t2.
Proof.
  intros Hr1 Hr2 Hp.
  destruct (count_per_class_resolved results1 t1 Hr1) as [_ ->].
  destruct (count_per_class_resolved results2 t2 Hr2) as [_ ->].
  by rewrite (bump_all_perm _ _ _ Hp), Hp.
Qed.

Lemma count_per_class_order_witness :
  resolved (names dog_then_cat) (kept c_0_25 (all_detections dog_then_cat))
  ∧ resolved (names cat_then_dog) (kept c_0_25 (all_detections cat_then_dog))
  ∧ labels (names dog_then_cat) (kept c_0_25 (all_detections dog_then_cat))
      ≡ₚ labels (names cat_then_dog) (kept c_0_25 (all_detections cat_then_dog))
  ∧ count_per_class dog_then_cat c_0_25 = count_per_class cat_then_dog c_0_25.
Proof.
  assert (resolved (names dog_then_cat)
            (kept c_0_25 (all_detections dog_then_cat))) as H1.
  { repeat constructor; by eexists. }
  assert (resolved (names cat_then_dog)
            (kept c_0_25 (all_detections cat_then_dog))) as H2.
  { repeat constructor; by eexists. }
  assert (labels (names dog_then_cat) (kept c_0_25 (all_detections dog_then_cat))
            ≡ₚ labels (names cat_then_dog)
                 (kept c_0_25 (all_detections cat_then_dog))) as H3.
  { apply perm_swap. }
  split; [exact H1|]. split; [exact H2|]. split; [exact H3|].
  exact (count_per_class_order dog_then_cat cat_then_dog c_0_25 c_0_25 H1 H2 H3).
Defined.

(** ** The three arrays of [r.boxes] *)

Lemma zip3_lookup {A B C} (xs : list A) (ys : list B) (zs : list C) i x y z :
  zip3 xs ys zs !! i = Some (x, y, z)
  ↔ xs !! i = Some x ∧ ys !! i = Some y ∧ zs !! i = Some z.
Proof.
  revert ys zs i.
  induction xs as [|x' xs IH]; intros [|y' ys] [|z' zs] [|i]; simpl;
    try (split; [done|by intros (? & ? & ?)]).
  - split; [by intros [= -> -> ->]|by intros ([= ->] & [= ->] & [= ->])].
  - apply IH.
Qed.

Lemma zip3_length {A B C} (xs : list A) (ys : list B) (zs : list C) :
  length (zip3 xs ys zs) = Nat.min (Nat.min (length xs) (length ys)) (length zs).
Proof.
  revert ys zs.
  induction xs as [|x xs IH]; intros [|y ys] [|z zs]; simpl; rewrite ?IH; lia.
Qed.

(** X3: the i-th detection exists iff all three arrays have an i-th entry,
    and is made of these; entries beyond the shortest array are dropped, so
    they are neither counted nor drawn. *)
Theorem detections_zip (r : Result) :
  (∀ i b c k,
     detections r !! i = Some (b, c, k)
     ↔ xyxy (boxes r) !! i = Some b
       ∧ conf (boxes r) !! i = Some c
       ∧ cls (boxes r) !! i = Some k)
  ∧ length (detections r)
    = Nat.min (Nat.min (length (xyxy (boxes r))) (length (conf (boxes r))))
              (length (cls (boxes r))).
Proof. split; [intros; apply zip3_lookup|apply zip3_length]. Qed.

(** ** annotate_frame *)

Section Annotation.

Variable getTextSize : text → Z * Z.

Lemma annotate_all_resolved names ds frame :
  resolved names ds →
  ∃ added,
    for_each (annotate_box getTextSize names neg_inf) ds frame = inr (frame ++ added)
    ∧ length added = (3 * length ds)%nat
    ∧ drawn_names added = labels names ds
    ∧ drawn_texts added
      = omap (λ d, (λ name, BoxLabel name (conf_of d)) <$> names !! cls_of d) ds.
Proof.
  intros Hr. revert frame.
  induction Hr as [|[[[[[x1 y1] x2] y2] c] k] ds [name Hn] _ IH]; intros frame.
  - exists []. by rewrite app_nil_r.
  - unfold cls_of in Hn. simpl in Hn.
    simpl. rewrite SFltb_neg_inf, Hn.
    destruct (IH (((frame ++ [Rectangle (x1, y1) (x2, y2) White 2])
                   ++ [Rectangle (x1, y1 - 18)
                         (x1 + (getTextSize (BoxLabel name c)).1 + 6, y1) White (-1)])
                  ++ [PutText (BoxLabel name c) (x1 + 3, y1 - 5) Black 1]))
      as (added & -> & Hlen & Hnames & Htexts).
    exists ([Rectangle (x1, y1) (x2, y2) White 2;
             Rectangle (x1, y1 - 18)
               (x1 + (getTextSize (BoxLabel name c)).1 + 6, y1) White (-1);
             PutText (BoxLabel name c) (x1 + 3, y1 - 5) Black 1] ++ added).
    split; [by rewrite <- !app_assoc|].
    split; [rewrite length_app, Hlen; simpl; lia|].
    split.
    + transitivity (name :: labels names ds); [simpl; by f_equal|].
      by unfold labels, cls_of.
    + transitivity (BoxLabel name c
                    :: omap (λ d, (λ name, BoxLabel name (conf_of d))
                                  <$> names !! cls_of d) ds);
        [simpl; by f_equal|].
      by unfold cls_of, conf_of.
Qed.

(** X4: when every detection it does not skip has a named class,
    [annotate_frame] returns the frame it was given with three drawing calls
    appended per such detection (box, label background, label text) and
    nothing else. The names on the labels, in drawing order, are the labels
    the counting loop tallies for the same detections: each box drawn is a
    detection counted. *)
Theorem annotate_frame_drawn (frame : Frame) (r : Result)
    (names : gmap Z string) (t : float) :
  resolved names (kept t (detections r)) →
  ∃ added,
    annotate_frame getTextSize frame r names t = inr (frame ++ added)
    ∧ length added = (3 * length (kept t (detections r)))%nat
    ∧ drawn_texts added
      = omap (λ d, (λ name, BoxLabel name (conf_of d)) <$> names !! cls_of d)
             (kept t (detections r))
    ∧ drawn_names added = labels names (kept t (detections r))
    ∧ for_each (count_box names t) (detections r) ∅
      = inr (bump_all (drawn_names added) ∅).
Proof.
  intros Hr. unfold annotate_frame. rewrite annotate_box_kept.
  destruct (annotate_all_resolved names _ frame Hr)
    as (added & Hrun & Hlen & Hnames & Htexts).
  exists added. split; [done|]. split; [done|]. split; [done|]. split; [done|].
  rewrite Hnames. by apply count_box_resolved.
Qed.

End Annotation.

Lemma annotate_frame_drawn_witness :
  resolved sample_names (kept c_0_25 (detections
     {| boxes := {| xyxy := [(1, 2, 3, 4); (5, 6, 7, 8)];
                    conf := [c_0_90; c_0_20]; cls := [0; 1] |};
        r_names := sample_names |}))
  ∧ ∃ added,
      annotate_frame sample_text_size [Rectangle (0, 0) (1, 1) Black 1]
        {| boxes := {| xyxy := [(1, 2, 3, 4); (5, 6, 7, 8)];
                       conf := [c_0_90; c_0_20]; cls := [0; 1] |};
           r_names := sample_names |} sample_names c_0_25
      = inr ([Rectangle (0, 0) (1, 1) Black 1] ++ added)
      ∧ length added = 3%nat
      ∧ drawn_names added = ["cat"%string].
Proof.
  set (r := {| boxes := {| xyxy := [(1, 2, 3, 4); (5, 6, 7, 8)];
                           conf := [c_0_90; c_0_20]; cls := [0; 1] |};
               r_names := sample_names |}).
  assert (resolved sample_names (kept c_0_25 (detections r))) as H1.
  { repeat constructor; by eexists. }
  split; [exact H1|].
  destruct (annotate_frame_drawn sample_text_size
              [Rectangle (0, 0) (1, 1) Black 1] r sample_names c_0_25 H1)
    as (added & Hrun & Hlen & _ & Hnames & _).
  exists added. split; [exact Hrun|]. split; [exact Hlen|]. exact Hnames.
Defined.

(** ** The summary panel *)

Lemma overlay_lines kvs frame y :
  (foldl (λ '(frame, y) '(k, v),
            (frame ++ [PutText (CountLine k v) (16, y) Black 1], y + 18))
         (frame, y) kvs).1
  = frame ++ imap (λ i kv, PutText (count_line kv) (16, y + 18 * Z.of_nat i) Black 1) kvs.
Proof.
  revert frame y. induction kvs as [|[k v] kvs IH]; intros frame y; simpl.
  - by rewrite app_nil_r.
  - rewrite IH, <- app_assoc. simpl. rewrite Z.add_0_r. do 2 f_equal.
    apply imap_ext. intros i kv _. unfold compose. f_equal. f_equal. lia.
Qed.

Lemma drawn_texts_lines (kvs : list (string * Z)) (f : nat → Z) :
  drawn_texts (imap (λ i kv, PutText (count_line kv) (16, f i) Black 1) kvs)
  = count_line <$> kvs.
Proof.
  revert f. induction kvs as [|kv kvs IH]; intros f; [done|].
  unfold drawn_texts in *. simpl. f_equal. apply (IH (f ∘ S)).
Qed.

(** X5: the summary panel is drawn over the frame it is given, which is
    kept: a filled rectangle whose bottom edge lies between 28 and 208, the
    total line at y = 24, then one line per category at y = 44 + 18 i in the
    order of [sorted]. The lines are not capped: from the eleventh category
    on they lie below the rectangle. The texts shown are the total and the
    categories of the CSV rows, in the same order. *)
Theorem overlay_summary_layout (frame : Frame) (counts : gmap string Z) :
  overlay_summary frame counts
  = frame
    ++ [Rectangle (10, 10) (260, panel_bottom counts) White (-1);
        PutText (TotalLine (total counts)) (16, 24) Black 2]
    ++ imap (λ i kv, PutText (count_line kv) (16, 44 + 18 * Z.of_nat i) Black 1)
            (sorted (items_but_total counts))
  ∧ 28 ≤ panel_bottom counts ≤ 208
  ∧ (∀ i : nat, (10 ≤ i)%nat → panel_bottom counts < 44 + 18 * Z.of_nat i)
  ∧ drawn_texts (overlay_summary [] counts)
    = TotalLine (total counts) :: (count_line <$> sorted (items_but_total counts))
  ∧ csv_rows counts
    = [CellStr "class"; CellStr "count"]
      :: [CellStr "total"; CellInt (total counts)]
      :: (category_row <$> sorted (items_but_total counts)).
Proof.
  assert (∀ fr, overlay_summary fr counts
          = fr
            ++ [Rectangle (10, 10) (260, panel_bottom counts) White (-1);
                PutText (TotalLine (total counts)) (16, 24) Black 2]
            ++ imap (λ i kv, PutText (count_line kv)
                               (16, 44 + 18 * Z.of_nat i) Black 1)
                    (sorted (items_but_total counts))) as Heq.
  { intros fr. unfold overlay_summary. rewrite overlay_lines.
    by rewrite <- !app_assoc. }
  split; [apply Heq|].
  split; [unfold panel_bottom; lia|].
  split; [intros i Hi; unfold panel_bottom; lia|].
  split; [|done].
  rewrite Heq. simpl. unfold drawn_texts. simpl. f_equal.
  apply (drawn_texts_lines _ (λ i, 44 + 18 * Z.of_nat i)).
Qed.

(** ** The CSV rows *)

#[global] Instance tuple_le_antisymm : AntiSymm (=) tuple_le.
Proof.
  intros [k1 v1] [k2 v2]. unfold tuple_le, tuple_leb. simpl.
  rewrite (String.compare_antisym k2 k1).
  destruct (String.compare k1 k2) eqn:E; simpl; try done.
  apply string_compare_eq in E. subst.
  rewrite !Is_true_true, !Z.leb_le. intros ??. f_equal. lia.
Qed.

(** the sorted list does not depend on the order the items come in *)
Lemma sorted_of_perm kvs1 kvs2 : kvs1 ≡ₚ kvs2 → sorted kvs1 = sorted kvs2.
Proof.
  intros Hp. apply (StronglySorted_unique tuple_le); [apply sorted_strongly..|].
  by rewrite !sorted_perm.
Qed.

#[global] Instance category_row_inj : Inj (=) (=) category_row.
Proof. intros [k1 v1] [k2 v2]. unfold category_row. simpl. by intros [= -> ->]. Qed.

(** X6: the rows written determine the snapshot and nothing else: two dicts
    give the same rows iff they have the same total and the same
    per-category entries. *)
Theorem csv_rows_faithful (counts1 counts2 : gmap string Z) :
  csv_rows counts1 = csv_rows counts2
  ↔ total counts1 = total counts2
    ∧ delete "__total"%string counts1 = delete "__total"%string counts2.
Proof.
  unfold csv_rows. split.
  - intros [= Htot Hrows]. split; [done|].
    apply (inj (fmap category_row)) in Hrows.
    apply map_to_list_inj.
    by rewrite <- !items_but_total_delete, <- (sorted_perm (items_but_total counts1)),
         Hrows, sorted_perm.
  - intros [-> Hdel]. do 3 f_equal. apply sorted_of_perm.
    by rewrite !items_but_total_delete, Hdel.
Qed.

(** X7: two writes to the same destination leave the rows of the second
    alone; and when the second does not open, the rows of the first stay as
    they were and [OSError] is raised. *)
Theorem save_twice (counts1 counts2 : gmap string Z) (path : string) (w : world) :
  (save_counts_csv true counts1 path ;; save_counts_csv true counts2 path) w
  = ({| fs := <[path := csv_rows counts2]> (fs w);
        trace := trace w ++ [OpenW path true; OpenW path true] |}, inr tt)
  ∧ (save_counts_csv true counts1 path ;; save_counts_csv false counts2 path) w
    = ({| fs := <[path := csv_rows counts1]> (fs w);
          trace := trace w ++ [OpenW path true; OpenW path false] |},
       inl (OSError path)).
Proof.
  unfold mbind, M_bind.
  rewrite !save_counts_csv_opened, save_counts_csv_refused. simpl.
  by rewrite insert_insert_eq, <- !app_assoc.
Qed.

(** ** The events of the stream loop *)

Lemma number_of_app P evs1 evs2 :
  number_of P (evs1 ++ evs2) = (number_of P evs1 + number_of P evs2)%nat.
Proof. unfold number_of. by rewrite filter_app, length_app. Qed.

Lemma loop_invariant_app args evs1 evs2 :
  loop_invariant args evs1 → loop_invariant args evs2 →
  loop_invariant args (evs1 ++ evs2).
Proof.
  unfold loop_invariant. intros (F1 & A1 & B1 & C1 & D1) (F2 & A2 & B2 & C2 & D2).
  rewrite !number_of_app. split; [by apply Forall_app|].
  destruct (args_save args); lia.
Qed.

Section LoopEvents.

Variable getTextSize : text → Z * Z.

Lemma step_outcome_events args tk last w r :
  step_outcome getTextSize args tk last w r →
  ∃ evs, trace r.1 = trace w ++ evs ∧ loop_invariant args ([CapRead true] ++ evs).
Proof.
  intros [e Hp|frame counts Hp Hk|frame counts Hp Hk Hidle
          |frame counts path Hp Hk Hd Hdue Hok|frame counts path Hp Hk Hd Hdue Hok];
    (eexists; split; [reflexivity|]);
    unfold loop_invariant, shown; destruct (args_save args); simpl;
    (split; [repeat constructor|vm_compute; repeat split; lia]).
Qed.

Lemma stream_loop_events args tks st w :
  ∃ evs,
    trace (stream_loop getTextSize args tks st w).1 = trace w ++ evs
    ∧ loop_invariant args evs.
Proof.
  revert st w. induction tks as [|tk tks IH]; intros [lc last] w.
  - rewrite stream_loop_nil. eexists. split; [reflexivity|].
    unfold loop_invariant. split; [repeat constructor|].
    destruct (args_save args); vm_compute; repeat split; lia.
  - rewrite stream_loop_cons.
    pose proof (loop_body_outcome getTextSize args tk lc last
                  {| fs := fs w; trace := trace w ++ [CapRead true] |}) as Hstep.
    apply step_outcome_events in Hstep as (evs & Htr & Hinv).
    destruct (loop_body getTextSize args tk (lc, last) _) as [w' [e|[[|] st']]];
      cbn [fst trace] in Htr; cbn iota beta; cbn [fst].
    + exists ([CapRead true] ++ evs). by rewrite Htr, <- app_assoc.
    + exists ([CapRead true] ++ evs). by rewrite Htr, <- app_assoc.
    + destruct (IH st' w') as (evs' & Htr' & Hinv').
      exists (([CapRead true] ++ evs) ++ evs'). split.
      * by rewrite Htr', Htr, <- !app_assoc.
      * by apply loop_invariant_app.
Qed.

(** the file system outside the destination *)
Lemma step_outcome_fs args tk last w r p :
  step_outcome getTextSize args tk last w r →
  csv_dest args ≠ Some p → fs r.1 !! p = fs w !! p.
Proof.
  intros [e Hp|frame counts Hp Hk|frame counts Hp Hk Hidle
          |frame counts path Hp Hk Hd Hdue Hok|frame counts path Hp Hk Hd Hdue Hok] Hne;
    simpl; try done.
  apply lookup_insert_ne. congruence.
Qed.

Lemma stream_loop_fs args tks st w p :
  csv_dest args ≠ Some p →
  fs (stream_loop getTextSize args tks st w).1 !! p = fs w !! p.
Proof.
  intros Hne. revert st w. induction tks as [|tk tks IH]; intros [lc last] w.
  - by rewrite stream_loop_nil.
  - rewrite stream_loop_cons.
    pose proof (loop_body_outcome getTextSize args tk lc last
                  {| fs := fs w; trace := trace w ++ [CapRead true] |}) as Hstep.
    apply (step_outcome_fs _ _ _ _ _ p) in Hstep; [|done].
    destruct (loop_body getTextSize args tk (lc, last) _) as [w' [e|[[|] st']]];
      cbn [fst fs] in Hstep; cbn iota beta; cbn [fst]; try done.
    by rewrite IH.
Qed.

End LoopEvents.

(** ** A whole stream run *)

Section StreamRun.

Variable getTextSize : text → Z * Z.

Lemma new_events_from w w' evs : trace w' = trace w ++ evs → new_events w w' = evs.
Proof. intros H. unfold new_events. rewrite H. apply drop_app_length. Qed.

(** a run on a source that opens: the opening events, the events of the
    loop, and the closing events unless the loop raised *)
Lemma main_stream_events args env w :
  isOpened env = true →
  ∃ loop_evs,
    loop_invariant args loop_evs
    ∧ ((∃ lc, (main_stream getTextSize args env w).2 = inr tt
              ∧ new_events w (main_stream getTextSize args env w).1
                = opening args ++ loop_evs ++ closing args lc)
       ∨ (∃ e, (main_stream getTextSize args env w).2 = inl e
               ∧ new_events w (main_stream getTextSize args env w).1
                 = opening args ++ loop_evs)).
Proof.
  intros Hop. rewrite main_stream_opened by done.
  destruct (stream_loop_events getTextSize args (ticks env) (∅, float_0)
              {| fs := fs w; trace := trace w ++ opening args |})
    as (evs & Htr & Hinv).
  exists evs. split; [done|].
  destruct (stream_loop getTextSize args (ticks env) _ _) as [w' [e|[lc last']]];
    cbn [fst trace] in Htr; cbn iota beta.
  - right. exists e. split; [done|]. cbn [fst]. apply new_events_from.
    by rewrite Htr, <- !app_assoc.
  - left. exists lc. rewrite close_stream_closing. split; [done|].
    cbn [fst trace]. apply new_events_from. cbn [trace].
    by rewrite Htr, <- !app_assoc.
Qed.

Lemma number_of_loop_teardown args evs :
  loop_invariant args evs → number_of is_teardown evs = 0%nat.
Proof.
  intros [Hall _]. unfold number_of.
  induction Hall as [|e evs He _ IH]; [done|].
  rewrite filter_cons. destruct e; try done; by rewrite decide_False.
Qed.

(** X8: on a source that opens, a run that returns has released the
    capture, destroyed the windows and, with [--save], released the video
    writer, each once and after the last frame; a run that ends with an
    exception has released nothing. *)
Theorem stream_teardown (args : Args) (env : Env) (w : world) :
  isOpened env = true →
  ((main_stream getTextSize args env w).2 = inr tt
   → ∃ loop_evs lc,
       new_events w (main_stream getTextSize args env w).1
       = opening args ++ loop_evs ++ closing args lc
       ∧ number_of is_teardown loop_evs = 0%nat
       ∧ number_of is_teardown (new_events w (main_stream getTextSize args env w).1)
         = (if args_save args then 3 else 2)%nat)
  ∧ (∀ e, (main_stream getTextSize args env w).2 = inl e
          → number_of is_teardown (new_events w (main_stream getTextSize args env w).1)
            = 0%nat).
Proof.
  intros Hop.
  destruct (main_stream_events args env w Hop)
    as (evs & Hinv & [(lc & Hret & Hev)|(e & Hexn & Hev)]).
  - split; [|intros e He; congruence].
    intros _. exists evs, lc. split; [done|].
    pose proof (number_of_loop_teardown _ _ Hinv) as H0. split; [done|].
    rewrite Hev, !number_of_app, H0. unfold opening, closing.
    destruct (args_save args), (csv_dest args), (bool_decide (lc ≠ ∅)); by vm_compute.
  - split; [intros He; congruence|].
    intros e' _. rewrite Hev, number_of_app, (number_of_loop_teardown _ _ Hinv).
    unfold opening. destruct (args_save args); by vm_compute.
Qed.

(** X9: in every run on a source that opens, returning or not, the model
    is called once per frame read; a frame is shown at most once per call of
    the model; with [--save] every frame shown was handed to the video
    writer and without it none is; and a snapshot file is opened at most
    once per frame shown. *)
Theorem stream_accounting (args : Args) (env : Env) (w : world) :
  isOpened env = true →
  number_of is_predict (new_events w (main_stream getTextSize args env w).1)
  = number_of is_frame_read (new_events w (main_stream getTextSize args env w).1)
  ∧ (number_of is_imshow (new_events w (main_stream getTextSize args env w).1)
     ≤ number_of is_predict (new_events w (main_stream getTextSize args env w).1))%nat
  ∧ number_of is_writer_write (new_events w (main_stream getTextSize args env w).1)
    = (if args_save args
       then number_of is_imshow (new_events w (main_stream getTextSize args env w).1)
       else 0)%nat
  ∧ (number_of is_open_w (new_events w (main_stream getTextSize args env w).1)
     ≤ number_of is_imshow (new_events w (main_stream getTextSize args env w).1))%nat.
Proof.
  intros Hop.
  assert (∀ P, P = is_predict ∨ P = is_frame_read ∨ P = is_imshow
               ∨ P = is_writer_write ∨ P = is_open_w →
               ∀ lc, number_of P (opening args) = 0%nat
                     ∧ number_of P (closing args lc) = 0%nat) as Hzero.
  { intros P HP lc. unfold opening, closing.
    destruct (args_save args), (csv_dest args), (bool_decide (lc ≠ ∅)),
      (decide (args_source args = "0"%string));
      destruct HP as [->|[->|[->|[->| ->]]]]; by vm_compute. }
  destruct (main_stream_events args env w Hop)
    as (evs & (_ & HA & HB & HC & HD) & [(lc & _ & ->)|(e & _ & ->)]);
    rewrite !number_of_app;
    rewrite ?(proj1 (Hzero is_predict ltac:(tauto) ∅)),
            ?(proj1 (Hzero is_frame_read ltac:(tauto) ∅)),
            ?(proj1 (Hzero is_imshow ltac:(tauto) ∅)),
            ?(proj1 (Hzero is_writer_write ltac:(tauto) ∅)),
            ?(proj1 (Hzero is_open_w ltac:(tauto) ∅)),
            ?(proj2 (Hzero is_predict ltac:(tauto) _)),
            ?(proj2 (Hzero is_frame_read ltac:(tauto) _)),
            ?(proj2 (Hzero is_imshow ltac:(tauto) _)),
            ?(proj2 (Hzero is_writer_write ltac:(tauto) _)),
            ?(proj2 (Hzero is_open_w ltac:(tauto) _));
    destruct (args_save args); lia.
Qed.

End StreamRun.

Lemma stream_teardown_witness :
  isOpened (stream_env clock_0_1_2) = true
  ∧ (main_stream sample_text_size stream_args (stream_env clock_0_1_2) world0).2
    = inr tt
  ∧ number_of is_teardown
      (new_events world0
         (main_stream sample_text_size stream_args (stream_env clock_0_1_2) world0).1)
    = 2%nat.
Proof.
  assert ((main_stream sample_text_size stream_args
             (stream_env clock_0_1_2) world0).2 = inr tt) as Hret by (by vm_compute).
  split; [reflexivity|]. split; [exact Hret|].
  destruct (proj1 (stream_teardown sample_text_size stream_args
                     (stream_env clock_0_1_2) world0 eq_refl) Hret)
    as (loop_evs & lc & _ & _ & Hn).
  exact Hn.
Defined.

Lemma stream_accounting_witness :
  isOpened (stream_env clock_0_1_2) = true
  ∧ number_of is_predict
      (new_events world0
         (main_stream sample_text_size stream_args (stream_env clock_0_1_2) world0).1)
    = number_of is_frame_read
        (new_events world0
           (main_stream sample_text_size stream_args (stream_env clock_0_1_2) world0).1).
Proof.
  split; [reflexivity|].
  exact (proj1 (stream_accounting sample_text_size stream_args
                  (stream_env clock_0_1_2) world0 eq_refl)).
Defined.

(** ** main and the file system *)

Section MainFiles.

Variable getTextSize : text → Z * Z.
Variable annotated_path : string → string.

Lemma main_still_fs args env w p :
  csv_dest args ≠ Some p →
  fs (main_still getTextSize annotated_path args env w).1 !! p = fs w !! p.
Proof.
  intros Hne. destruct w as [f tr].
  unfold main_still, first_result, mbind, M_bind, mret, M_ret, lift, emit, when, raise.
  simpl.
  destruct (count_per_class (still_results env) (args_conf args)); simpl; [done|].
  destruct (csv_dest args) as [path|] eqn:Hd;
    [destruct (still_open_ok env);
     rewrite ?save_counts_csv_opened, ?save_counts_csv_refused; simpl; [|done]|];
    destruct (args_save args); simpl;
    rewrite ?lookup_insert_ne by congruence; try done;
    (destruct (items (still_results env)) as [|r0 ?]; simpl;
     rewrite ?lookup_insert_ne by congruence; [done|]);
    destruct (annotate_frame getTextSize [] r0 (r_names r0) (args_conf args)); simpl;
    by rewrite ?lookup_insert_ne by congruence.
Qed.

Lemma main_stream_fs args env w p :
  csv_dest args ≠ Some p →
  fs (main_stream getTextSize args env w).1 !! p = fs w !! p.
Proof.
  intros Hne. destruct (isOpened env) eqn:Hop.
  - rewrite main_stream_opened by done.
    pose proof (stream_loop_fs getTextSize args (ticks env) (∅, float_0)
                  {| fs := fs w; trace := trace w ++ opening args |} p Hne) as Hfs.
    destruct (stream_loop getTextSize args (ticks env) _ _) as [w' [e|[lc last']]];
      cbn [fst fs] in Hfs; cbn iota beta; [done|].
    by rewrite close_stream_closing.
  - unfold main_stream, mbind, M_bind, emit, raise. by rewrite Hop.
Qed.

Lemma step_outcome_writes args tk last w r :
  step_outcome getTextSize args tk last w r →
  ∃ evs, trace r.1 = trace w ++ evs ∧ Forall (loop_write_ok args) evs.
Proof.
  intros [e Hp|frame counts Hp Hk|frame counts Hp Hk Hidle
          |frame counts path Hp Hk Hd Hdue Hok|frame counts path Hp Hk Hd Hdue Hok];
    (eexists; split; [reflexivity|]);
    unfold shown; destruct (args_save args) eqn:Hsave; simpl;
    repeat (constructor; [by simpl|]); constructor.
Qed.

Lemma stream_loop_writes args tks st w :
  ∃ evs,
    trace (stream_loop getTextSize args tks st w).1 = trace w ++ evs
    ∧ Forall (loop_write_ok args) evs.
Proof.
  revert st w. induction tks as [|tk tks IH]; intros [lc last] w.
  - rewrite stream_loop_nil. eexists. split; [reflexivity|]. by repeat constructor.
  - rewrite stream_loop_cons.
    pose proof (loop_body_outcome getTextSize args tk lc last
                  {| fs := fs w; trace := trace w ++ [CapRead true] |}) as Hstep.
    apply step_outcome_writes in Hstep as (evs & Htr & Hall).
    assert (Forall (loop_write_ok args) ([CapRead true] ++ evs)) as Hall'.
    { apply Forall_app. split; [by repeat constructor|done]. }
    destruct (loop_body getTextSize args tk (lc, last) _) as [w' [e|[[|] st']]];
      cbn [fst trace] in Htr; cbn iota beta; cbn [fst].
    + exists ([CapRead true] ++ evs). by rewrite Htr, <- app_assoc.
    + exists ([CapRead true] ++ evs). by rewrite Htr, <- app_assoc.
    + destruct (IH st' w') as (evs' & Htr' & Hall'').
      exists (([CapRead true] ++ evs) ++ evs'). split.
      * by rewrite Htr', Htr, <- !app_assoc.
      * by apply Forall_app.
Qed.

Lemma main_stream_writes args env w :
  is_still (args_source args) = false →
  Forall (write_ok annotated_path args)
         (new_events w (main_stream getTextSize args env w).1).
Proof.
  intros Hs.
  assert (∀ evs, Forall (loop_write_ok args) evs →
                 Forall (write_ok annotated_path args) evs) as Hweaken.
  { intros evs Hevs. apply (Forall_impl _ _ _ Hevs).
    intros [] H; simpl in *; try done; by repeat split. }
  assert (Forall (write_ok annotated_path args) (opening args)) as Hopening.
  { unfold opening. destruct (args_save args) eqn:Hsave; simpl;
      repeat (constructor; [simpl; by auto|]); constructor. }
  destruct (isOpened env) eqn:Hop.
  - rewrite main_stream_opened by done.
    destruct (stream_loop_writes args (ticks env) (∅, float_0)
                {| fs := fs w; trace := trace w ++ opening args |})
      as (evs & Htr & Hall).
    destruct (stream_loop getTextSize args (ticks env) _ _) as [w' [e|[lc last']]];
      cbn [fst trace] in Htr; cbn iota beta.
    + cbn [fst]. rewrite (new_events_from w w' (opening args ++ evs))
        by (by rewrite Htr, <- !app_assoc).
      apply Forall_app. auto.
    + rewrite close_stream_closing. cbn [fst].
      rewrite (new_events_from w _ (opening args ++ evs ++ closing args lc))
        by (cbn [trace]; by rewrite Htr, <- !app_assoc).
      rewrite !Forall_app. split; [done|]. split; [auto|].
      unfold closing.
      destruct (args_save args), (csv_dest args), (bool_decide (lc ≠ ∅)); simpl;
        repeat (constructor; [by simpl|]); constructor.
  - unfold main_stream, mbind, M_bind, emit, raise. rewrite Hop. simpl.
    rewrite new_events_app. by repeat constructor.
Qed.

Lemma main_still_writes args env w :
  is_still (args_source args) = true →
  Forall (write_ok annotated_path args)
         (new_events w (main_still getTextSize annotated_path args env w).1).
Proof.
  intros Hs. destruct w as [f tr].
  unfold main_still, first_result, mbind, M_bind, mret, M_ret, lift, emit, when, raise,
    new_events.
  simpl.
  destruct (count_per_class (still_results env) (args_conf args)); simpl;
    [rewrite drop_app_length; by repeat constructor|].
  destruct (csv_dest args) as [path|] eqn:Hd;
    [destruct (still_open_ok env);
     rewrite ?save_counts_csv_opened, ?save_counts_csv_refused; simpl|];
    destruct (args_save args) eqn:Hsave; simpl;
    try (destruct (items (still_results env)) as [|r0 ?]; simpl;
         [|destruct (annotate_frame getTextSize [] r0 (r_names r0) (args_conf args));
           simpl]);
    rewrite <- ?app_assoc; rewrite drop_app_length; simpl;
    repeat (constructor; [simpl; by auto|]); constructor.
Qed.

(** X10: every file [main] writes is one of three. The only file it opens
    with [open] is the destination given by [--csv], and no other file that
    [open] could have written changes (none at all without a destination);
    the video "annotated.mp4" is created and fed only on a stream with
    [--save]; the annotated image is written, under the derived name, only
    on a still with [--save]. This holds whether the run returns or
    raises. *)
Theorem main_file_writes (args : Args) (env : Env) (w : world) :
  Forall (write_ok annotated_path args)
         (new_events w (main getTextSize annotated_path args env w).1)
  ∧ (∀ p, csv_dest args ≠ Some p →
          fs (main getTextSize annotated_path args env w).1 !! p = fs w !! p).
Proof.
  unfold main. destruct (is_still (args_source args)) eqn:Hs.
  - split; [by apply main_still_writes|]. intros p Hne. by apply main_still_fs.
  - split; [by apply main_stream_writes|]. intros p Hne. by apply main_stream_fs.
Qed.

End MainFiles.

(** runs with [--save]: the video of a stream, the annotated image of a
    still, and in both the snapshot file *)
Example save_runs_sample :
  (∃ f1 f2 c,
     new_events world0
       (main sample_text_size sample_annotated_path stream_save_args
          (stream_env [quiet_tick cat_dog_cat t_100 true]) world0).1
     = [CaptureOpen (inr "video.mp4"%string); WriterOpen "annotated.mp4";
        Print (MsgSavingTo "annotated.mp4"); NamedWindow;
        CapRead true; Predict; WriterWrite f1; Imshow f2; OpenW "out.csv" true;
        CapRead false; CapRelease; WriterRelease; DestroyAllWindows;
        Print (MsgFinalCounts c); Print (MsgSavedCsv "out.csv")]
     ∧ f1 = f2)
  ∧ ∃ img c,
      new_events world0
        (main sample_text_size sample_annotated_path still_save_args
           (stream_env []) world0).1
      = [Predict; Print (MsgCounts c); OpenW "out.csv" true;
         Print (MsgSavedCsv "out.csv"); Imread "photo.jpg";
         Imwrite "photo_annotated.jpg" img;
         Print (MsgSavedImage "photo_annotated.jpg")].
Proof. vm_compute. split; [by eexists _, _, _|by eexists _, _]. Qed.

(** ** ESC and the last counts *)

Section LoopEnds.

Variable getTextSize : text → Z * Z.

(** X11: when the key polled in an iteration has 27 in its low byte, the
    loop ends there: the frame of that iteration has been shown (and handed
    to the video writer with [--save]), no snapshot is written even if one
    is due, no further frame is read, and the counts of that frame are the
    last counts. Only the low byte of the key code matters. *)
Theorem esc_ends_loop (args : Args) (tk : Tick) (rest : list Tick)
    (frame : Frame) (counts lc : gmap string Z) (last : float) (w : world) :
  processed getTextSize args tk = inr (frame, counts) →
  Z.land (waitKey tk) 255 = 27 →
  stream_loop getTextSize args (tk :: rest) (lc, last) w
  = ({| fs := fs w; trace := trace w ++ [CapRead true] ++ shown args frame |},
     inr (counts, last))
  ∧ (∀ key, Z.land key 255 = 27 ↔ key mod 256 = 27).
Proof.
  intros Hp Hk. split.
  - assert (∀ w0, loop_body getTextSize args tk (lc, last) w0
                  = ({| fs := fs w0; trace := trace w0 ++ shown args frame |},
                     inr (Break, (counts, last)))) as Hbody.
    { intros w0.
      pose proof (loop_body_outcome getTextSize args tk lc last w0) as Hstep.
      inversion Hstep as [e Hp'|f' c' Hp' Hk' Heq|f' c' Hp' Hk'
                          |f' c' p' Hp' Hk'|f' c' p' Hp' Hk']; try congruence.
      rewrite Hp in Hp'. by simplify_eq. }
    rewrite stream_loop_cons, Hbody. cbn [fs trace]. by rewrite <- app_assoc.
  - intros key. change 255 with (Z.ones 8). rewrite Z.land_ones by lia. done.
Qed.

Lemma step_outcome_no_read args tk last w r :
  step_outcome getTextSize args tk last w r →
  ∃ evs, trace r.1 = trace w ++ evs ∧ number_of is_frame_read evs = 0%nat.
Proof.
  intros [e Hp|frame counts Hp Hk|frame counts Hp Hk Hidle
          |frame counts path Hp Hk Hd Hdue Hok|frame counts path Hp Hk Hd Hdue Hok];
    (eexists; split; [reflexivity|]);
    unfold shown; destruct (args_save args); by vm_compute.
Qed.

(** X12: when the loop returns, either it read no frame and the last counts
    are those it started with, or they are the counts of the last frame it
    read: the frames before it were processed without ESC, the number of
    frames read in the trace is their number plus one, and that frame is the
    last of the source or saw ESC. The last counts then hold the key
    "__total", so they are not empty. *)
Theorem last_counts_of_last_frame (args : Args) (tks : list Tick)
    (lc lc' : gmap string Z) (last last' : float) (w w' : world) :
  stream_loop getTextSize args tks (lc, last) w = (w', inr (lc', last')) →
  (tks = [] ∧ lc' = lc ∧ number_of is_frame_read (new_events w w') = 0%nat)
  ∨ ∃ before tk after frame,
      tks = before ++ tk :: after
      ∧ Forall (λ t, succeeds (processed getTextSize args t)
                     ∧ Z.land (waitKey t) 255 ≠ 27) before
      ∧ number_of is_frame_read (new_events w w') = S (length before)
      ∧ processed getTextSize args tk = inr (frame, lc')
      ∧ (after = [] ∨ Z.land (waitKey tk) 255 = 27)
      ∧ is_Some (lc' !! "__total"%string)
      ∧ lc' ≠ ∅.
Proof.
  revert lc last w. induction tks as [|tk tks IH]; intros lc last w Hrun.
  - left. rewrite stream_loop_nil in Hrun. simplify_eq.
    split; [done|]. split; [done|]. by rewrite new_events_app.
  - right. rewrite stream_loop_cons in Hrun.
    pose proof (loop_body_outcome getTextSize args tk lc last
                  {| fs := fs w; trace := trace w ++ [CapRead true] |}) as Hstep.
    destruct (step_outcome_no_read _ _ _ _ _ Hstep) as (evs & Htr & Hevs).
    assert (∀ frame counts,
              processed getTextSize args tk = inr (frame, counts) →
              is_Some (counts !! "__total"%string) ∧ counts ≠ ∅) as Htotal.
    { intros frame counts Hp. unfold processed in Hp.
      destruct (items (predicted tk)) as [|r0 ?]; [done|].
      destruct (annotate_frame _ _ _ _ _); [done|].
      unfold count_per_class in Hp. destruct (tally _ _ _ _); [done|].
      simplify_eq. split; [by rewrite lookup_insert_eq|apply insert_non_empty]. }
    destruct (loop_body getTextSize args tk (lc, last) _)
      as [w1 [e|[[|] [lc1 last1]]]] eqn:Hbody; [done|..];
      cbn [fst trace] in Htr.
    + simplify_eq.
      inversion Hstep as [|f c Hp Hk| | |]; [|congruence..].
      destruct (Htotal _ _ Hp) as [? ?].
      exists [], tk, tks, f. split; [done|]. split; [constructor|].
      split; [|by auto].
      rewrite <- app_assoc in Htr. subst. rewrite (new_events_from _ _ _ Htr).
      by rewrite number_of_app, Hevs.
    + assert (∃ f, processed getTextSize args tk = inr (f, lc1)
                   ∧ Z.land (waitKey tk) 255 ≠ 27) as (f & Hp & Hk).
      { inversion Hstep; subst; eauto. }
      destruct (stream_loop_events getTextSize args tks (lc1, last1) w1)
        as (evs' & Htr' & _).
      rewrite Hrun in Htr'. cbn [fst] in Htr'.
      assert (new_events w w' = ([CapRead true] ++ evs) ++ evs') as Hall.
      { apply new_events_from. by rewrite Htr', Htr, <- !app_assoc. }
      assert (new_events w1 w' = evs') as Hrest by (by apply new_events_from).
      destruct (IH _ _ _ Hrun)
        as [(-> & -> & Hn)|(before & tk' & after & f' & -> & Hb & Hn & Hrest')].
      * destruct (Htotal _ _ Hp) as [? ?]. exists [], tk, [], f.
        split; [done|]. split; [constructor|]. split; [|by auto].
        rewrite Hall, !number_of_app, Hevs. rewrite Hrest in Hn. by rewrite Hn.
      * exists (tk :: before), tk', after, f'.
        split; [done|]. split; [constructor; [split; [by eexists|done]|done]|].
        split; [|done].
        rewrite Hall, !number_of_app, Hevs. rewrite Hrest in Hn. by rewrite Hn.
Qed.

End LoopEnds.

Lemma esc_ends_loop_witness :
  ∃ frame counts,
    processed sample_text_size stream_args
      {| predicted := cat_dog_cat; waitKey := 27; clock_check := t_100;
         clock_stamp := t_100; csv_open_ok := true |}
    = inr (frame, counts)
    ∧ stream_loop sample_text_size stream_args
        [ {| predicted := cat_dog_cat; waitKey := 27; clock_check := t_100;
             clock_stamp := t_100; csv_open_ok := true |};
          quiet_tick three_dogs t_102 true ]
        (∅, float_0) world0
      = ({| fs := ∅; trace := [CapRead true] ++ shown stream_args frame |},
         inr (counts, float_0)).
Proof.
  assert (∃ frame counts,
            processed sample_text_size stream_args
              {| predicted := cat_dog_cat; waitKey := 27; clock_check := t_100;
                 clock_stamp := t_100; csv_open_ok := true |}
            = inr (frame, counts)) as (frame & counts & Hp).
  { vm_compute. by eexists _, _. }
  exists frame, counts. split; [exact Hp|].
  exact (proj1 (esc_ends_loop sample_text_size stream_args _
                  [quiet_tick three_dogs t_102 true] frame counts ∅ float_0 world0
                  Hp eq_refl)).
Defined.

Lemma last_counts_of_last_frame_witness :
  ∃ w' lc' last',
    stream_loop sample_text_size stream_args clock_0_1_2 (∅, float_0) world0
    = (w', inr (lc', last'))
    ∧ ((clock_0_1_2 = [] ∧ lc' = ∅
        ∧ number_of is_frame_read (new_events world0 w') = 0%nat)
       ∨ ∃ before tk after frame,
           clock_0_1_2 = before ++ tk :: after
           ∧ Forall (λ t, succeeds (processed sample_text_size stream_args t)
                          ∧ Z.land (waitKey t) 255 ≠ 27) before
           ∧ number_of is_frame_read (new_events world0 w') = S (length before)
           ∧ processed sample_text_size stream_args tk = inr (frame, lc')
           ∧ (after = [] ∨ Z.land (waitKey tk) 255 = 27)
           ∧ is_Some (lc' !! "__total"%string)
           ∧ lc' ≠ ∅).
Proof.
  destruct (stream_loop sample_text_size stream_args clock_0_1_2 (∅, float_0) world0)
    as [w' [e|[lc' last']]] eqn:Hrun.
  - exfalso. revert Hrun. vm_compute. discriminate.
  - exists w', lc', last'. split; [reflexivity|].
    exact (last_counts_of_last_frame sample_text_size stream_args clock_0_1_2
             ∅ lc' float_0 last' world0 w' Hrun).
Defined.

(** ** Which sources are stills *)

Lemma string_length_app s1 s2 :
  String.length (s1 +:+ s2) = (String.length s1 + String.length s2)%nat.
Proof. induction s1 as [|c s1 IH]; simpl; [done|by rewrite IH]. Qed.

Lemma substring_all s : substring 0 (String.length s) s = s.
Proof. induction s as [|c s IH]; simpl; [done|by rewrite IH]. Qed.

Lemma substring_none s : substring 0 0 s = ""%string.
Proof. by destruct s. Qed.

Lemma substring_app_suffix p s :
  substring (String.length p) (String.length s) (p +:+ s) = s.
Proof. induction p as [|c p IH]; simpl; [apply substring_all|done]. Qed.

Lemma substring_split s k m :
  (k + m)%nat = String.length s → s = substring 0 k s +:+ substring k m s.
Proof.
  revert k. induction s as [|c s IH]; intros [|k] Hk; simpl in *.
  - by destruct m.
  - done.
  - destruct m as [|m]; [done|]. injection Hk as Hk. subst m.
    by rewrite substring_all.
  - injection Hk as Hk.
    change (String c s = String c (substring 0 k s +:+ substring k m s)).
    f_equal. by apply IH.
Qed.

Lemma endswith_iff s suffix : endswith s suffix = true ↔ ∃ p, s = p +:+ suffix.
Proof.
  unfold endswith. rewrite andb_true_iff, Nat.leb_le, String.eqb_eq. split.
  - intros [Hle Hsub]. exists (substring 0 (String.length s - String.length suffix) s).
    rewrite (substring_split s (String.length s - String.length suffix)
               (String.length suffix)) at 1 by lia.
    by rewrite Hsub.
  - intros [p ->]. rewrite string_length_app. split; [lia|].
    replace (String.length p + String.length suffix - String.length suffix)%nat
      with (String.length p) by lia.
    apply substring_app_suffix.
Qed.

Lemma lower_app s1 s2 : lower (s1 +:+ s2) = lower s1 +:+ lower s2.
Proof. induction s1 as [|c s1 IH]; simpl; [done|by rewrite IH]. Qed.

Lemma lower_app_inv s p q :
  lower s = p +:+ q → ∃ s1 s2, s = s1 +:+ s2 ∧ lower s1 = p ∧ lower s2 = q.
Proof.
  revert s. induction p as [|c p IH]; intros s Hs; simpl in Hs.
  - by exists ""%string, s.
  - destruct s as [|c' s]; [done|]. simpl in Hs. injection Hs as Hc Hs.
    destruct (IH _ Hs) as (s1 & s2 & -> & <- & <-).
    exists (String c' s1), s2. simpl. by rewrite Hc.
Qed.

(** X13: a source is treated as a still image iff it ends with one of the
    seven extensions of line 54 written in any mix of upper and lower case;
    every other source, "0" included, goes to the stream path. *)
Theorem is_still_extension (source : string) :
  is_still source = true
  ↔ ∃ stem ext, source = stem +:+ ext ∧ lower ext ∈ still_suffixes.
Proof.
  unfold is_still. fold still_suffixes. rewrite existsb_exists. split.
  - intros (suffix & Hin & Hend). apply endswith_iff in Hend as [p Hp].
    apply lower_app_inv in Hp as (stem & ext & -> & _ & <-).
    exists stem, ext. split; [done|]. by apply list_elem_of_In.
  - intros (stem & ext & -> & Hin). exists (lower ext).
    split; [by apply list_elem_of_In|].
    apply endswith_iff. exists (lower stem). apply lower_app.
Qed.

(** the dispatch of some sources *)
Example is_still_samples :
  is_still "photo.JPG" = true ∧ is_still "scan.Tiff" = true
  ∧ is_still "0" = false ∧ is_still "video.mp4" = false
  ∧ is_still "jpg" = false ∧ is_still "photo.jpg.bak" = false.
Proof. by vm_compute. Qed.

(** ** An empty destination *)

Section EmptyDestination.

Variable getTextSize : text → Z * Z.
Variable annotated_path : string → string.

Lemma stream_loop_empty_destination args tks st w :
  stream_loop getTextSize (with_csv args (Some ""%string)) tks st w
  = stream_loop getTextSize (with_csv args None) tks st w.
Proof.
  revert st w. induction tks as [|tk tks IH]; intros st w; [done|].
  rewrite !stream_loop_cons.
  change (loop_body getTextSize (with_csv args (Some ""%string)) tk st)
    with (loop_body getTextSize (with_csv args None) tk st).
  destruct (loop_body getTextSize (with_csv args None) tk st _)
    as [w' [e|[[|] st']]]; done.
Qed.

(** X14: [--csv ""] is [--csv] not given: the empty path is false at lines
    58, 116 and 123, so the run, still or stream, is the same in every
    respect. *)
Theorem empty_destination_is_none (args : Args) (env : Env) (w : world) :
  main getTextSize annotated_path (with_csv args (Some ""%string)) env w
  = main getTextSize annotated_path (with_csv args None) env w.
Proof.
  unfold main. cbn [with_csv args_source].
  destruct (is_still (args_source args)); [done|].
  unfold main_stream, mbind, M_bind. cbn [with_csv args_source args_save].
  destruct (emit _ w) as [w0 [e|[]]]; [done|].
  destruct (isOpened env); [|done]. cbn [negb].
  destruct (when (args_save args) _ w0) as [w1 [e|[]]]; [done|].
  destruct (emit NamedWindow w1) as [w2 [e|[]]]; [done|].
  rewrite stream_loop_empty_destination.
  by destruct (stream_loop getTextSize (with_csv args None) (ticks env) _ w2)
    as [w3 [e|[lc last]]].
Qed.

End EmptyDestination.

(** ** A still run *)

Section StillRun.

Variable getTextSize : text → Z * Z.
Variable annotated_path : string → string.

(** X15: in a still run with a destination whose file opens, the snapshot
    is written without any look at a clock, and before the image is
    annotated: the file holds the rows of the counts of the still. Without
    [--save] the run then returns; with [--save] it reads the image again,
    annotates it with the boxes of [results[0]] and writes it under the
    derived name, or raises [IndexError] after the CSV file is written when
    [results] is empty. *)
Theorem still_run (args : Args) (env : Env) (w : world)
    (counts : gmap string Z) (path : string) :
  count_per_class (still_results env) (args_conf args) = inr counts →
  csv_dest args = Some path →
  still_open_ok env = true →
  (args_save args = false →
   main_still getTextSize annotated_path args env w
   = ({| fs := <[path := csv_rows counts]> (fs w);
         trace := trace w ++ [Predict; Print (MsgCounts counts);
                              OpenW path true; Print (MsgSavedCsv path)] |},
      inr tt))
  ∧ (∀ r0 rest annotated,
       args_save args = true →
       items (still_results env) = r0 :: rest →
       annotate_frame getTextSize [] r0 (r_names r0) (args_conf args) = inr annotated →
       main_still getTextSize annotated_path args env w
       = ({| fs := <[path := csv_rows counts]> (fs w);
             trace := trace w ++ [Predict; Print (MsgCounts counts);
                                  OpenW path true; Print (MsgSavedCsv path);
                                  Imread (args_source args);
                                  Imwrite (annotated_path (args_source args)) annotated;
                                  Print (MsgSavedImage
                                           (annotated_path (args_source args)))] |},
          inr tt))
  ∧ (args_save args = true →
     items (still_results env) = [] →
     main_still getTextSize annotated_path args env w
     = ({| fs := <[path := csv_rows counts]> (fs w);
           trace := trace w ++ [Predict; Print (MsgCounts counts);
                                OpenW path true; Print (MsgSavedCsv path);
                                Imread (args_source args)] |},
        inl IndexError)).
Proof.
  intros Hc Hd Hok. destruct w as [f tr].
  unfold main_still, first_result, mbind, M_bind, mret, M_ret, lift, emit, when, raise.
  rewrite Hc, Hd, Hok. simpl. rewrite save_counts_csv_opened. simpl.
  split; [|split].
  - intros ->. by rewrite <- !app_assoc.
  - intros r0 rest annotated -> Hitems Ha. rewrite Hitems. simpl. rewrite Ha. simpl.
    by rewrite <- !app_assoc.
  - intros -> Hitems. rewrite Hitems. simpl. by rewrite <- !app_assoc.
Qed.

End StillRun.

Lemma still_run_witness :
  ∃ counts,
    count_per_class (still_results (stream_env [])) (args_conf still_args) = inr counts
    ∧ csv_dest still_args = Some "out.csv"%string
    ∧ still_open_ok (stream_env []) = true
    ∧ main_still sample_text_size sample_annotated_path still_args (stream_env [])
        {| fs := {["out.csv"%string := [[CellStr "stale"]]]}; trace := [] |}
      = ({| fs := <["out.csv"%string := csv_rows counts]>
                    {["out.csv"%string := [[CellStr "stale"]]]};
            trace := [Predict; Print (MsgCounts counts);
                      OpenW "out.csv" true; Print (MsgSavedCsv "out.csv")] |},
         inr tt).
Proof.
  assert (∃ counts,
            count_per_class (still_results (stream_env [])) (args_conf still_args)
            = inr counts) as [counts Hc].
  { vm_compute. by eexists. }
  exists counts. split; [exact Hc|]. split; [reflexivity|]. split; [reflexivity|].
  exact (proj1 (still_run sample_text_size sample_annotated_path still_args
                  (stream_env [])
                  {| fs := {["out.csv"%string := [[CellStr "stale"]]]}; trace := [] |}
                  counts "out.csv" Hc eq_refl eq_refl) eq_refl).
Defined.

(** ** Thresholds outside [0, 1] *)

Lemma SFleb_SFltb_trans c t1 t2 :
  SFleb c t1 = true → SFltb t1 t2 = true → SFltb c t2 = true.
Proof.
  unfold SFltb, SFleb.
  destruct c as [[]|[]| |[] mc ec], t1 as [[]|[]| |[] m1 e1], t2 as [[]|[]| |[] m2 e2];
    simpl; try done; intros H1 H2; float_order.
Qed.

Lemma SFltb_not_SFleb x y : SFltb x y = true → SFleb y x = false.
Proof.
  unfold SFltb, SFleb.
  destruct x as [[]|[]| |[] mx ex], y as [[]|[]| |[] my ey]; simpl; try done;
    intros H; float_order.
Qed.

Lemma kept_all_at_most_zero ds t :
  Forall (λ d, SFleb float_0 (conf_of d) = true ∧ SFleb (conf_of d) float_1 = true) ds →
  SFleb t float_0 = true → kept t ds = ds.
Proof.
  intros Hall Ht. unfold kept.
  induction Hall as [|d ds [H0 _] _ IH]; [done|].
  rewrite filter_cons, IH. rewrite decide_True; [done|].
  destruct (SFltb (conf_of d) t) eqn:Hlt; [|done].
  pose proof (SFltb_SFleb_trans _ _ _ Hlt Ht) as Hneg.
  apply SFltb_not_SFleb in Hneg. congruence.
Qed.

Lemma kept_none_above_one ds t :
  Forall (λ d, SFleb float_0 (conf_of d) = true ∧ SFleb (conf_of d) float_1 = true) ds →
  SFltb float_1 t = true → kept t ds = [].
Proof.
  intros Hall Ht. unfold kept.
  induction Hall as [|d ds [_ H1] _ IH]; [done|].
  rewrite filter_cons, IH. rewrite decide_False; [done|].
  by rewrite (SFleb_SFltb_trans _ _ _ H1 Ht).
Qed.

(** X16: a threshold outside [0, 1] is not an error. The threshold is the
    value the comparison of lines 13 and 24 sees. With confidences in
    [0, 1]: above 1, [count_per_class] returns the dict with the total 0 and
    nothing else, whatever [names] holds (no class is looked up), and
    [annotate_frame] returns the frame as it was; at most 0, both do what
    they do with no threshold at all (a threshold of minus infinity), so
    [count_per_class] returns as soon as every class has a name. *)
Theorem threshold_out_of_range (getTextSize : text → Z * Z) (results : Results)
    (r : Result) (nm : gmap Z string) (frame : Frame) (t : float) :
  Forall (λ d, SFleb float_0 (conf_of d) = true ∧ SFleb (conf_of d) float_1 = true)
         (all_detections results) →
  Forall (λ d, SFleb float_0 (conf_of d) = true ∧ SFleb (conf_of d) float_1 = true)
         (detections r) →
  (SFltb float_1 t = true →
   count_per_class results t = inr {["__total"%string := 0]}
   ∧ annotate_frame getTextSize frame r nm t = inr frame)
  ∧ (SFleb t float_0 = true →
     count_per_class results t = count_per_class results neg_inf
     ∧ annotate_frame getTextSize frame r nm t
       = annotate_frame getTextSize frame r nm neg_inf
     ∧ (resolved (names results) (all_detections results) →
        ∃ counts, count_per_class results t = inr counts)).
Proof.
  intros Hall Hr. split; intros Ht.
  - split.
    + unfold count_per_class. rewrite tally_flat, count_box_kept.
      fold (all_detections results). rewrite (kept_none_above_one _ _ Hall Ht).
      simpl. unfold items_but_total. rewrite map_to_list_empty. simpl.
      by rewrite insert_empty.
    + unfold annotate_frame. rewrite annotate_box_kept.
      by rewrite (kept_none_above_one _ _ Hr Ht).
  - assert (count_per_class results t = count_per_class results neg_inf) as Hsame.
    { unfold count_per_class. rewrite !tally_flat.
      rewrite (count_box_kept _ t), (count_box_kept _ neg_inf).
      fold (all_detections results).
      by rewrite (kept_all_at_most_zero _ _ Hall Ht), kept_neg_inf. }
    split; [done|]. split.
    + unfold annotate_frame.
      rewrite (annotate_box_kept _ _ t), (annotate_box_kept _ _ neg_inf).
      by rewrite (kept_all_at_most_zero _ _ Hr Ht), kept_neg_inf.
    + intros Hres. rewrite <- (kept_all_at_most_zero _ _ Hall Ht) in Hres.
      destruct (count_per_class_resolved results t Hres) as [_ Hc]. eauto.
Qed.

Lemma threshold_out_of_range_witness :
  Forall (λ d, SFleb float_0 (conf_of d) = true ∧ SFleb (conf_of d) float_1 = true)
    (all_detections cat_dog_cat)
  ∧ SFltb float_1 float_2 = true
  ∧ count_per_class cat_dog_cat float_2 = inr {["__total"%string := 0]}
  ∧ annotate_frame sample_text_size []
      {| boxes := {| xyxy := replicate 3 (0, 0, 10, 10);
                     conf := [c_0_90; c_0_20; c_0_50]; cls := [0; 1; 0] |};
         r_names := sample_names |} sample_names float_2 = inr []
  ∧ SFleb (S754_finite true 4503599627370496 (-52)) float_0 = true
  ∧ count_per_class cat_dog_cat (S754_finite true 4503599627370496 (-52))
    = count_per_class cat_dog_cat neg_inf.
Proof.
  assert (Forall (λ d, SFleb float_0 (conf_of d) = true
                       ∧ SFleb (conf_of d) float_1 = true)
            (all_detections cat_dog_cat)) as H by (repeat constructor).
  pose proof (threshold_out_of_range sample_text_size cat_dog_cat
                {| boxes := {| xyxy := replicate 3 (0, 0, 10, 10);
                               conf := [c_0_90; c_0_20; c_0_50]; cls := [0; 1; 0] |};
                   r_names := sample_names |} sample_names []) as Hthm.
  split; [exact H|]. split; [reflexivity|].
  split.
  { refine (proj1 (proj1 (Hthm float_2 H _) eq_refl)). repeat constructor. }
  split.
  { refine (proj2 (proj1 (Hthm float_2 H _) eq_refl)). repeat constructor. }
  split; [reflexivity|].
  refine (proj1 (proj2 (Hthm (S754_finite true 4503599627370496 (-52)) H _) eq_refl)).
  repeat constructor.
Defined.

(** ** Frames that cannot be processed, and no frame at all *)

Section StreamEdges.

Variable getTextSize : text → Z * Z.

(** X17: when the model's answer for a frame cannot be indexed, annotated
    or counted (an empty [results], a class without a name), the loop ends
    with that exception right after the call of the model: the frame is
    neither shown nor recorded, no snapshot is written, no further frame is
    read, and a run on a source that opens ends with status 1. *)
Theorem unprocessed_frame_ends_run (args : Args) (tk : Tick) (rest : list Tick)
    (e : exn) (lc : gmap string Z) (last : float) (w : world) :
  processed getTextSize args tk = inl e →
  stream_loop getTextSize args (tk :: rest) (lc, last) w
  = ({| fs := fs w; trace := trace w ++ [CapRead true; Predict] |}, inl e)
  ∧ (∀ env,
       isOpened env = true → ticks env = tk :: rest →
       main_stream getTextSize args env w
       = ({| fs := fs w;
             trace := trace w ++ opening args ++ [CapRead true; Predict] |}, inl e)
       ∧ exit_status (main_stream getTextSize args env w).2 = 1).
Proof.
  intros Hp.
  assert (∀ lc0 last0 w0,
            stream_loop getTextSize args (tk :: rest) (lc0, last0) w0
            = ({| fs := fs w0; trace := trace w0 ++ [CapRead true; Predict] |},
               inl e)) as Hloop.
  { intros lc0 last0 w0.
    assert (loop_body getTextSize args tk (lc0, last0)
              {| fs := fs w0; trace := trace w0 ++ [CapRead true] |}
            = ({| fs := fs w0; trace := (trace w0 ++ [CapRead true]) ++ [Predict] |},
               inl e)) as Hbody.
    { pose proof (loop_body_outcome getTextSize args tk lc0 last0
                    {| fs := fs w0; trace := trace w0 ++ [CapRead true] |}) as Hstep.
      inversion Hstep as [e' Hp' Heq| | | |]; try congruence.
      rewrite Hp in Hp'. by simplify_eq. }
    rewrite stream_loop_cons, Hbody. by rewrite <- app_assoc. }
  split; [apply Hloop|].
  intros env Hop Hticks.
  rewrite main_stream_opened, Hticks, Hloop by done. cbn [fs trace snd].
  by rewrite <- app_assoc.
Qed.

(** X18: on a source that opens but delivers no frame, the run returns
    having written no file and printed no counts, even with a destination;
    the window, and with [--save] the video writer, are still opened and
    released. *)
Theorem no_frame_run (args : Args) (env : Env) (w : world) :
  isOpened env = true →
  ticks env = [] →
  main_stream getTextSize args env w
  = ({| fs := fs w;
        trace := trace w ++ opening args ++ [CapRead false]
                 ++ [CapRelease]
                 ++ (if args_save args then [WriterRelease] else [])
                 ++ [DestroyAllWindows] |},
     inr tt).
Proof.
  intros Hop Hticks.
  rewrite main_stream_opened, Hticks, stream_loop_nil, close_stream_closing by done.
  cbn [fs trace]. unfold closing.
  rewrite bool_decide_eq_false_2 by (by intros H; apply H).
  destruct (csv_dest args), (args_save args); cbn [app]; by rewrite <- !app_assoc.
Qed.

End StreamEdges.

Lemma unprocessed_frame_ends_run_witness :
  processed sample_text_size stream_args (quiet_tick cat_unknown_cat t_100 true)
  = inl (KeyError 7)
  ∧ stream_loop sample_text_size stream_args
      [quiet_tick cat_unknown_cat t_100 true; quiet_tick three_dogs t_102 true]
      (∅, float_0) world0
    = ({| fs := ∅; trace := [CapRead true; Predict] |}, inl (KeyError 7)).
Proof.
  assert (processed sample_text_size stream_args
            (quiet_tick cat_unknown_cat t_100 true) = inl (KeyError 7)) as Hp
    by (by vm_compute).
  split; [exact Hp|].
  exact (proj1 (unprocessed_frame_ends_run sample_text_size stream_args
                  (quiet_tick cat_unknown_cat t_100 true)
                  [quiet_tick three_dogs t_102 true] (KeyError 7) ∅ float_0 world0 Hp)).
Defined.

Lemma no_frame_run_witness :
  isOpened no_frame = true
  ∧ ticks no_frame = []
  ∧ main_stream sample_text_size stream_args no_frame world0
    = ({| fs := ∅;
          trace := opening stream_args ++ [CapRead false]
                   ++ [CapRelease] ++ [] ++ [DestroyAllWindows] |},
       inr tt).
Proof.
  split; [reflexivity|]. split; [reflexivity|].
  exact (no_frame_run sample_text_size stream_args no_frame world0 eq_refl eq_refl).
Defined.
